(** * imap-clean-dup: duplicate detection and removal over an IMAP session

    A shallow embedding of [main.go], in the version with the
    [-ignore-message-id] and [-list-only-dups] flags (the earlier version
    kept next to it has the same two functions without the flags): the
    fingerprint computed for every message of a mailbox, the
    classification loop of [FindDups] together with the goroutine that
    feeds it, and the mark-and-expunge loop of [RemoveDups].

    - Go strings are byte sequences and are modelled by [string]; [[]byte]
      is [list byte]; [uint32] values are [N] (the program does no
      arithmetic on them); [map[string]struct{}] is a [gset string].
    - [crypto/sha1] and [encoding/base64] are written out from RFC 3174 and
      RFC 4648 and run against their test vectors.
    - The IMAP connection is a log of the commands sent, with a server that
      answers each command as a function of the log.
    - [FindDups] is a machine of two parties, the goroutine and the caller,
      joined by two buffered channels and run under a schedule; the
      statements about it quantify over all schedules.
    - A nil [msg.Envelope] makes the loop body panic; a pending call, a
      return and a panic are told apart in [Outcome]. *)

From Stdlib Require Import ZArith NArith String Ascii List Lia.
From Stdlib.Strings Require Import Byte.
From stdpp Require Import base option list gmap sets strings pretty relations.

Local Open Scope Z_scope.

(** ** crypto/sha1 *)

(** The SHA-1 digest of RFC 3174 on 32-bit words held in [Z], and the part of
    Go's [hash.Hash] interface the program calls. *)
Module sha1.

Definition w32 (x : Z) : Z := x mod 2 ^ 32.

Definition rotl (n x : Z) : Z :=
  w32 (Z.lor (Z.shiftl x n) (Z.shiftr x (32 - n))).

Definition byte_of_Z (x : Z) : byte :=
  match Byte.of_N (Z.to_N (x mod 256)) with
  | Some b => b
  | None => x00
  end.

Definition Z_of_byte (b : byte) : Z := Z.of_N (Byte.to_N b).

(** Big-endian rendering of [x] on [n] bytes. *)
Fixpoint be_bytes (n : nat) (x : Z) : list byte :=
  match n with
  | O => []
  | S n' => byte_of_Z (Z.shiftr x (8 * Z.of_nat n')) :: be_bytes n' x
  end.

Definition be_word (bs : list byte) : Z :=
  fold_left (fun acc b => acc * 256 + Z_of_byte b) bs 0.

(** Message padding: a 1 bit, zeros up to 56 mod 64, the bit length on 8
    bytes. *)
Definition pad (msg : list byte) : list byte :=
  let len := Z.of_nat (length msg) in
  let zeros := Z.to_nat ((55 - len) mod 64) in
  msg ++ byte_of_Z 128 :: repeat x00 zeros ++ be_bytes 8 (8 * len).

Fixpoint words (n : nat) (bs : list byte) : list Z :=
  match n with
  | O => []
  | S n' => be_word (firstn 4 bs) :: words n' (skipn 4 bs)
  end.

Fixpoint blocks (n : nat) (bs : list byte) : list (list Z) :=
  match n with
  | O => []
  | S n' => words 16 (firstn 64 bs) :: blocks n' (skipn 64 bs)
  end.

Definition f (t : nat) (b c d : Z) : Z :=
  if (t <? 20)%nat then Z.lor (Z.land b c) (Z.land (Z.lxor b (2 ^ 32 - 1)) d)
  else if (t <? 40)%nat then Z.lxor (Z.lxor b c) d
  else if (t <? 60)%nat then
    Z.lor (Z.lor (Z.land b c) (Z.land b d)) (Z.land c d)
  else Z.lxor (Z.lxor b c) d.

Definition K (t : nat) : Z :=
  if (t <? 20)%nat then 0x5A827999
  else if (t <? 40)%nat then 0x6ED9EBA1
  else if (t <? 60)%nat then 0x8F1BBCDC
  else 0xCA62C1D6.

Record regs := Regs { ra : Z; rb : Z; rc : Z; rd : Z; re : Z }.

Definition init : regs :=
  Regs 0x67452301 0xEFCDAB89 0x98BADCFE 0x10325476 0xC3D2E1F0.

(** [n] rounds starting at round [t]; [w] is the window of the sixteen
    schedule words W(t) .. W(t+15). *)
Fixpoint rounds (n t : nat) (w : list Z) (r : regs) : regs :=
  match n with
  | O => r
  | S n' =>
      let wt := nth 0 w 0 in
      let wnext :=
        rotl 1 (Z.lxor (Z.lxor (Z.lxor (nth 13 w 0) (nth 8 w 0)) (nth 2 w 0)) wt) in
      let tmp := w32 (rotl 5 (ra r) + f t (rb r) (rc r) (rd r) + re r + wt + K t) in
      rounds n' (S t) (tl w ++ [wnext])
        (Regs tmp (ra r) (rotl 30 (rb r)) (rc r) (rd r))
  end.

Definition compress (r : regs) (blk : list Z) : regs :=
  let r' := rounds 80 0 blk r in
  Regs (w32 (ra r + ra r')) (w32 (rb r + rb r')) (w32 (rc r + rc r'))
       (w32 (rd r + rd r')) (w32 (re r + re r')).

(** The 20-byte digest of [msg]. *)
Definition digest (msg : list byte) : list byte :=
  let p := pad msg in
  let r := fold_left compress (blocks (length p / 64) p) init in
  be_bytes 4 (ra r) ++ be_bytes 4 (rb r) ++ be_bytes 4 (rc r)
    ++ be_bytes 4 (rd r) ++ be_bytes 4 (re r).

(** [hash.Hash]: the state is the data written so far. *)
Record Hash := mkHash { written : list byte }.

(** [sha1.New()] *)
Definition New : Hash := mkHash [].

(** [h.Write(p)] *)
Definition Write (h : Hash) (p : list byte) : Hash := mkHash (written h ++ p).

(** [h.Sum(b)]: appends the digest of the data written to [h] so far to [b]
    and returns the resulting slice; [b] itself is not hashed. *)
Definition Sum (h : Hash) (b : list byte) : list byte := b ++ digest (written h).

End sha1.

(** ** encoding/base64 *)

(** [base64.StdEncoding.EncodeToString]: RFC 4648 alphabet with [=] padding. *)
Module base64.

Definition encodeStd : string :=
  "ABCDEFGHIJKLMNOPQRSTUVWXYZabcdefghijklmnopqrstuvwxyz0123456789+/".

Definition sextet (i : Z) : ascii :=
  match String.get (Z.to_nat (i mod 64)) encodeStd with
  | Some c => c
  | None => "="%char
  end.

Fixpoint encode (src : list byte) : string :=
  match src with
  | [] => EmptyString
  | [a] =>
      let v := sha1.Z_of_byte a * 65536 in
      String (sextet (Z.shiftr v 18)) (String (sextet (Z.shiftr v 12))
        (String "="%char (String "="%char EmptyString)))
  | [a; b] =>
      let v := sha1.Z_of_byte a * 65536 + sha1.Z_of_byte b * 256 in
      String (sextet (Z.shiftr v 18)) (String (sextet (Z.shiftr v 12))
        (String (sextet (Z.shiftr v 6)) (String "="%char EmptyString)))
  | a :: b :: c :: rest =>
      let v := sha1.Z_of_byte a * 65536 + sha1.Z_of_byte b * 256
               + sha1.Z_of_byte c in
      String (sextet (Z.shiftr v 18)) (String (sextet (Z.shiftr v 12))
        (String (sextet (Z.shiftr v 6)) (String (sextet v)
          (encode rest))))
  end.

Definition EncodeToString (src : list byte) : string := encode src.

End base64.

(** ** time *)

(** [time.Time]: the program observes a time only through its [String()]
    method, so a time is modelled by that rendering. *)
Module time.
Record Time := mkTime { String : string }.
End time.

(** ** github.com/emersion/go-imap *)

Definition uint32 := N.

(** A non-nil Go [error], by its message; a nilable error is [option error]. *)
Definition error := string.

Definition LF : string := String "010"%char EmptyString.

Module imap.

Record Address := mkAddress {
  PersonalName : string;
  AtDomainList : string;
  MailboxName : string;
  HostName : string }.

(** [addr.Address()]: the mailbox address, e.g. foo@example.org. *)
Definition Address_Address (addr : Address) : string :=
  MailboxName addr +:+ "@" +:+ HostName addr.

Record Envelope := mkEnvelope {
  Date : time.Time;
  Subject : string;
  From : list Address;
  Sender : list Address;
  ReplyTo : list Address;
  To : list Address;
  Cc : list Address;
  Bcc : list Address;
  InReplyTo : string;
  MessageId : string }.

(** [imap.Message]; [Envelope] is a pointer, nil when the response carried
    no envelope. *)
Record Message := mkMessage {
  SeqNum : uint32;
  Envelope_ : option Envelope;
  Uid : uint32 }.

Record MailboxStatus := mkMailboxStatus {
  Name : string;
  ReadOnly : bool;
  UidValidity : uint32 }.

Record Seq := mkSeq { Start : uint32; Stop : uint32 }.

(** [imap.SeqSet]. The program only ever adds one range to an empty set,
    where the library's sorted insertion is an append. *)
Definition SeqSet := list Seq.

Definition SeqSet_insert (s : SeqSet) (v : Seq) : SeqSet := s ++ [v].

Definition AddNum (s : SeqSet) (v : uint32) : SeqSet :=
  SeqSet_insert s (mkSeq v v).

Definition AddRange (s : SeqSet) (start stop : uint32) : SeqSet :=
  if ((stop <? start)%N && negb (stop =? 0)%N) || (start =? 0)%N
  then SeqSet_insert s (mkSeq stop start)
  else SeqSet_insert s (mkSeq start stop).

Definition FetchUid : string := "UID".
Definition FetchEnvelope : string := "ENVELOPE".
Definition AddFlags : string := "+FLAGS".
Definition DeletedFlag : string := "\Deleted".

Definition FormatFlagsOp (op : string) (silent : bool) : string :=
  if silent then op +:+ ".SILENT" else op.

End imap.

Definition MaxUint32 : uint32 := 4294967295%N.

(** ** github.com/emersion/go-imap/client *)

(** The remote peer of a session is known only by the commands it is sent
    and its replies.  A [Server] gives the reply to the latest command as a
    function of all commands sent so far (the latest one last); a [Client]
    is a server together with the log of commands issued on the
    connection. *)
Module client.

Inductive Command :=
| CmdSelect (name : string) (readOnly : bool)
| CmdUidFetch (seqset : imap.SeqSet) (items : list string)
| CmdUidStore (seqset : imap.SeqSet) (item : string) (value : list string)
| CmdExpunge.

Record Server := mkServer {
  select_reply : list Command -> imap.MailboxStatus + error;
  fetch_reply : list Command -> list imap.Message * option error;
  store_reply : list Command -> option error;
  expunge_reply : list Command -> option error }.

Record Client := mkClient {
  server : Server;
  sent : list Command }.

Definition issue (c : Client) (cmd : Command) : Client :=
  mkClient (server c) (sent c ++ [cmd]).

(** [c.Select(name, readOnly)] *)
Definition Select (c : Client) (name : string) (readOnly : bool)
  : Client * (imap.MailboxStatus + error) :=
  let c' := issue c (CmdSelect name readOnly) in
  (c', select_reply (server c') (sent c')).

(** [c.UidFetch(seqset, items, ch)]: the command is issued; the messages of
    the reply are then sent on [ch] one by one, [ch] is closed and the
    error of the reply returned (see the producer below). *)
Definition UidFetch_issue (c : Client) (seqset : imap.SeqSet) (items : list string)
  : Client * (list imap.Message * option error) :=
  let c' := issue c (CmdUidFetch seqset items) in
  (c', fetch_reply (server c') (sent c')).

(** [c.UidStore(seqset, item, value, nil)] *)
Definition UidStore (c : Client) (seqset : imap.SeqSet) (item : string)
    (value : list string) : Client * option error :=
  let c' := issue c (CmdUidStore seqset item value) in
  (c', store_reply (server c') (sent c')).

(** [c.Expunge(nil)] *)
Definition Expunge (c : Client) : Client * option error :=
  let c' := issue c CmdExpunge in
  (c', expunge_reply (server c') (sent c')).

End client.

(** ** main.go *)

(** *** The fingerprint of a message (FindDups, the head of the loop body) *)

(** [strings.Builder] *)
Definition Builder := string.

Definition WriteString (builder : Builder) (s : string) : Builder :=
  builder +:+ s.

Definition Builder_String (builder : Builder) : string := builder.

(** [for _, f := range addrs { builder.WriteString(tag);
    builder.WriteString(f.Address()) }] *)
Definition write_addresses (tag : string) (addrs : list imap.Address)
    (builder : Builder) : Builder :=
  fold_left
    (fun builder f => WriteString (WriteString builder tag) (imap.Address_Address f))
    addrs builder.

(** The text handed to [hash.Sum]. *)
Definition content (env : imap.Envelope) : string :=
  let builder : Builder := "" in
  let builder := WriteString builder "date:" in
  let builder := WriteString builder (time.String (imap.Date env)) in
  let builder := WriteString builder (LF +:+ "subject:") in
  let builder := WriteString builder (imap.Subject env) in
  let builder := write_addresses (LF +:+ "from:") (imap.From env) builder in
  let builder := write_addresses (LF +:+ "sender:") (imap.Sender env) builder in
  let builder := write_addresses (LF +:+ "reply-to:") (imap.ReplyTo env) builder in
  let builder := write_addresses (LF +:+ "to:") (imap.To env) builder in
  let builder := write_addresses (LF +:+ "cc:") (imap.Cc env) builder in
  let builder := write_addresses (LF +:+ "bcc:") (imap.Bcc env) builder in
  let builder := WriteString builder (LF +:+ "in-reply-to:") in
  let builder := WriteString builder (imap.InReplyTo env) in
  Builder_String builder.

(** Lines 122-163: the value of [messageID] after the two [if]s. *)
Definition fingerprint (ignoreMessageID : bool) (env : imap.Envelope) : string :=
  let messageID := imap.MessageId env in
  let messageID := if ignoreMessageID then "" else messageID in
  if decide (messageID = "") then
    let hash := sha1.New in
    base64.EncodeToString (sha1.Sum hash (list_byte_of_string (content env)))
  else messageID.

(** *** FindDups: the range loop *)

(** The locals of [FindDups] that the loop updates, and standard output. *)
Record Frame := mkFrame {
  uniqueIDs : gset string;
  dups : list uint32;
  stdout : string }.

Definition Print (fr : Frame) (s : string) : Frame :=
  mkFrame (uniqueIDs fr) (dups fr) (stdout fr +:+ s).

(** [fmt.Printf("%s: %s %d %s:", mbox, msg.Envelope.Subject, msg.Uid, messageID)] *)
Definition report (mbox : string) (env : imap.Envelope) (uid : uint32)
    (messageID : string) : string :=
  mbox +:+ ": " +:+ imap.Subject env +:+ " " +:+ pretty uid +:+ " "
    +:+ messageID +:+ ":".

(** One iteration of [for msg := range msgChan]; [None] is the nil-pointer
    panic of [msg.Envelope.MessageId] on a message without envelope. *)
Definition loop_body (mbox : string) (ignoreMessageID listOnlyDups : bool)
    (fr : Frame) (msg : imap.Message) : option Frame :=
  match imap.Envelope_ msg with
  | None => None
  | Some env =>
      let messageID := fingerprint ignoreMessageID env in
      let fr :=
        if negb listOnlyDups
        then Print fr (report mbox env (imap.Uid msg) messageID) else fr in
      if decide (messageID ∈ uniqueIDs fr) then
        let fr := mkFrame (uniqueIDs fr) (dups fr ++ [imap.Uid msg]) (stdout fr) in
        let fr :=
          if listOnlyDups
          then Print fr (report mbox env (imap.Uid msg) messageID) else fr in
        let fr := Print fr ("duplicate" +:+ LF) in
        let fr := if listOnlyDups then Print fr LF else fr in
        Some fr
      else
        let fr := if negb listOnlyDups then Print fr LF else fr in
        Some (mkFrame ({[messageID]} ∪ uniqueIDs fr) (dups fr) (stdout fr))
  end.

(** The loop over the messages received, in the order received. *)
Fixpoint range_loop (mbox : string) (ignoreMessageID listOnlyDups : bool)
    (msgs : list imap.Message) (fr : Frame) : option Frame :=
  match msgs with
  | [] => Some fr
  | msg :: rest =>
      match loop_body mbox ignoreMessageID listOnlyDups fr msg with
      | None => None
      | Some fr' => range_loop mbox ignoreMessageID listOnlyDups rest fr'
      end
  end.

(** *** FindDups: the goroutine, the two channels and the scheduler *)

(** A buffered channel: the queued values, the capacity, the closed flag. *)
Record Chan (A : Type) := mkChan {
  buf : list A;
  cap : nat;
  closed : bool }.
Arguments mkChan {A} _ _ _.
Arguments buf {A} _.
Arguments cap {A} _.
Arguments closed {A} _.

Definition make (A : Type) (n : nat) : Chan A := mkChan [] n false.

(** The goroutine started by [FindDups], by program point. *)
Inductive Producer :=
| GoStart
    (* about to call c.UidFetch *)
| GoFetch (rest : list imap.Message) (res : option error)
    (* inside c.UidFetch: [rest] still to send, [res] to return *)
| GoFetched
    (* err assigned; at [if err != nil] *)
| GoClose
    (* at [close(errChan)] *)
| GoExit.

(** The caller, by program point. *)
Inductive Consumer :=
| Ranging (fr : Frame)
    (* at [for msg := range msgChan] *)
| Receiving (fr : Frame)
    (* at [err = <-errChan] *)
| Returned (fr : Frame)
    (* after [return dups, err] *)
| Panicked.

Record Machine := mkMachine {
  conn : client.Client;
  err : option error;     (* the named result [err], shared with the goroutine *)
  msgChan : Chan imap.Message;
  errChan : Chan error;
  producer : Producer;
  consumer : Consumer }.

Definition seqset_all : imap.SeqSet := imap.AddRange [] 1%N MaxUint32.
Definition items : list string := [imap.FetchUid; imap.FetchEnvelope].

Definition is_Panicked (k : Consumer) : bool :=
  match k with Panicked => true | _ => false end.

(** One step of the goroutine; [None] when it is blocked or has exited (or
    the caller has panicked, which ends the run of [FindDups]). *)
Definition producer_step (m : Machine) : option Machine :=
  if is_Panicked (consumer m) then None else
  match producer m with
  | GoStart =>
      let '(c', (msgs, res)) := client.UidFetch_issue (conn m) seqset_all items in
      Some (mkMachine c' (err m) (msgChan m) (errChan m) (GoFetch msgs res) (consumer m))
  | GoFetch (msg :: rest) res =>
      let ch := msgChan m in
      if (length (buf ch) <? cap ch)%nat then
        Some (mkMachine (conn m) (err m)
                (mkChan (buf ch ++ [msg]) (cap ch) (closed ch)) (errChan m)
                (GoFetch rest res) (consumer m))
      else None
  | GoFetch [] res =>
      let ch := msgChan m in
      Some (mkMachine (conn m) res
              (mkChan (buf ch) (cap ch) true) (errChan m)
              GoFetched (consumer m))
  | GoFetched =>
      match err m with
      | Some e =>
          let ch := errChan m in
          if (length (buf ch) <? cap ch)%nat then
            Some (mkMachine (conn m) (err m) (msgChan m)
                    (mkChan (buf ch ++ [e]) (cap ch) (closed ch))
                    GoClose (consumer m))
          else None
      | None =>
          Some (mkMachine (conn m) (err m) (msgChan m) (errChan m)
                  GoClose (consumer m))
      end
  | GoClose =>
      let ch := errChan m in
      Some (mkMachine (conn m) (err m) (msgChan m)
              (mkChan (buf ch) (cap ch) true) GoExit (consumer m))
  | GoExit => None
  end.

(** One step of the caller; [None] when it is blocked, has returned or has
    panicked. *)
Definition consumer_step (mbox : string) (ignoreMessageID listOnlyDups : bool)
    (m : Machine) : option Machine :=
  match consumer m with
  | Ranging fr =>
      let ch := msgChan m in
      match buf ch with
      | msg :: rest =>
          Some (mkMachine (conn m) (err m)
                  (mkChan rest (cap ch) (closed ch)) (errChan m) (producer m)
                  match loop_body mbox ignoreMessageID listOnlyDups fr msg with
                  | Some fr' => Ranging fr'
                  | None => Panicked
                  end)
      | [] =>
          if closed ch then
            Some (mkMachine (conn m) (err m) (msgChan m) (errChan m)
                    (producer m) (Receiving fr))
          else None
      end
  | Receiving fr =>
      let ch := errChan m in
      match buf ch with
      | e :: rest =>
          Some (mkMachine (conn m) (Some e) (msgChan m)
                  (mkChan rest (cap ch) (closed ch)) (producer m) (Returned fr))
      | [] =>
          if closed ch then
            Some (mkMachine (conn m) None (msgChan m) (errChan m)
                    (producer m) (Returned fr))
          else None
      end
  | Returned _ => None
  | Panicked => None
  end.

(** Any interleaving of the two is a run of the program. *)
Definition step (mbox : string) (ignoreMessageID listOnlyDups : bool)
    (m m' : Machine) : Prop :=
  producer_step m = Some m'
  ∨ consumer_step mbox ignoreMessageID listOnlyDups m = Some m'.

(** A run under a schedule: [true] gives the turn to the goroutine, [false]
    to the caller; a party that cannot move yields to the other; the run
    ends with the schedule or when neither can move. *)
Fixpoint exec (mbox : string) (ignoreMessageID listOnlyDups : bool)
    (sched : list bool) (m : Machine) : Machine :=
  match sched with
  | [] => m
  | turn :: sched' =>
      let p := producer_step m in
      let k := consumer_step mbox ignoreMessageID listOnlyDups m in
      match (if turn then p else k), (if turn then k else p) with
      | Some m', _ => exec mbox ignoreMessageID listOnlyDups sched' m'
      | None, Some m' => exec mbox ignoreMessageID listOnlyDups sched' m'
      | None, None => m
      end
  end.

(** What the caller of [FindDups] observes. *)
Inductive Outcome :=
| Return (uids : list uint32) (err : option error)
| Panic
| Pending.   (* the schedule ended before the call returned *)

Definition outcome (m : Machine) : Outcome :=
  match consumer m with
  | Returned fr => Return (dups fr) (err m)
  | Panicked => Panic
  | _ => Pending
  end.

Definition final_stdout (out : string) (m : Machine) : string :=
  match consumer m with
  | Ranging fr | Receiving fr | Returned fr => stdout fr
  | Panicked => out
  end.

(** The machine at the [go] statement. *)
Definition spawn (c : client.Client) (out : string) : Machine :=
  mkMachine c None (make imap.Message 1000) (make error 1)
    GoStart (Ranging (mkFrame ∅ [] out)).

(** [FindDups] up to the end of the schedule: the connection and either the
    early return on a failed selection or the machine reached. *)
Definition FindDups_run (sched : list bool) (c : client.Client) (out : string)
    (mbox : string) (ignoreMessageID listOnlyDups : bool)
    : client.Client * (error + Machine) :=
  match client.Select c mbox false with
  | (c, inr e) => (c, inl e)
  | (c, inl st) =>
      let out := out +:+ "MBOX UID " +:+ pretty (imap.UidValidity st) +:+ LF in
      let m := exec mbox ignoreMessageID listOnlyDups sched (spawn c out) in
      (conn m, inr m)
  end.

Definition FindDups (sched : list bool) (c : client.Client) (out : string)
    (mbox : string) (ignoreMessageID listOnlyDups : bool)
    : client.Client * Outcome :=
  match FindDups_run sched c out mbox ignoreMessageID listOnlyDups with
  | (c, inl e) => (c, Return [] (Some e))
  | (c, inr m) => (c, outcome m)
  end.

(** *** RemoveDups *)

(** [for _, uid := range uids { ... }]: the connection after the loop and the
    error it returned with, if any. *)
Fixpoint mark_loop (c : client.Client) (uids : list uint32)
    : client.Client * option error :=
  match uids with
  | [] => (c, None)
  | uid :: rest =>
      let seqSet := imap.AddNum [] uid in
      match client.UidStore c seqSet (imap.FormatFlagsOp imap.AddFlags true)
              [imap.DeletedFlag] with
      | (c, Some e) => (c, Some e)
      | (c, None) => mark_loop c rest
      end
  end.

Definition RemoveDups (c : client.Client) (mbox : string) (uids : list uint32)
    : client.Client * option error :=
  match client.Select c mbox false with
  | (c, inr e) => (c, Some e)
  | (c, inl _) =>
      match mark_loop c uids with
      | (c, Some e) => (c, Some e)
      | (c, None) => client.Expunge c
      end
  end.

(** ** Vocabulary of the statements *)

(** The mark-deleted request for one identifier (RemoveDups, line 197). *)
Definition mark_request (uid : uint32) : client.Command :=
  client.CmdUidStore [imap.mkSeq uid uid] "+FLAGS.SILENT" ["\Deleted"].

(** The reply of [srv] to the mark of the [k]-th identifier of [uids], the
    marks before it having been sent after the commands [log]. *)
Definition mark_reply (srv : client.Server) (log : list client.Command)
    (uids : list uint32) (k : nat) : option error :=
  client.store_reply srv (log ++ map mark_request (take (S k) uids)).

(** The requests of the scan phase. *)
Definition select_request (mbox : string) : client.Command :=
  client.CmdSelect mbox false.

Definition fetch_request : client.Command :=
  client.CmdUidFetch [imap.mkSeq 1%N 4294967295%N] ["UID"; "ENVELOPE"].

(** The records of a stream as the specification sees them: the Fingerprint
    and the unique identifier of every message that carries an envelope. *)
Definition records (ignoreMessageID : bool) (msgs : list imap.Message)
    : list (string * uint32) :=
  omap (fun msg =>
          match imap.Envelope_ msg with
          | Some env => Some (fingerprint ignoreMessageID env, imap.Uid msg)
          | None => None
          end) msgs.

(** The Duplicate List in the words of the specification: the identifiers,
    in arrival order, of the records whose Fingerprint is that of a record
    that arrived earlier ([earlier] lists the Fingerprints that arrived
    before [recs]). *)
Fixpoint duplicate_list (earlier : list string) (recs : list (string * uint32))
    : list uint32 :=
  match recs with
  | [] => []
  | (fp, uid) :: rest =>
      (if bool_decide (fp ∈ earlier) then [uid] else [])
        ++ duplicate_list (earlier ++ [fp]) rest
  end.

(** The digest of a text, as the flag's help line announces it: a hash
    calculated for the message. *)
Definition digest_of_content (env : imap.Envelope) : string :=
  base64.EncodeToString (sha1.digest (list_byte_of_string (content env))).

(** *** The state of a run, for the proofs *)

(** The messages the goroutine has still to send. *)
Definition pending (msgs : list imap.Message) (p : Producer) : list imap.Message :=
  match p with
  | GoStart => msgs
  | GoFetch rest _ => rest
  | _ => []
  end.

(** Program points of the goroutine: [c.UidFetch] not yet returned; command
    on the wire; past [if err != nil { errChan <- err }]; past
    [close(errChan)]. *)
Definition fetching (p : Producer) : bool :=
  match p with GoStart | GoFetch _ _ => true | _ => false end.

Definition started (p : Producer) : bool :=
  match p with GoStart => false | _ => true end.

Definition announced (p : Producer) : bool :=
  match p with GoClose | GoExit => true | _ => false end.

Definition exited (p : Producer) : bool :=
  match p with GoExit => true | _ => false end.

(** What holds of every machine reached from [spawn c out], [fr0] being the
    frame at the [go] statement, when the fetch delivers [msgs], all with an
    envelope, and returns [res]. *)
Definition Inv (mbox : string) (ignoreMessageID listOnlyDups : bool)
    (c : client.Client) (fr0 : Frame) (msgs : list imap.Message)
    (res : option error) (m : Machine) : Prop :=
  conn m = (if started (producer m) then client.issue c fetch_request else c)
  ∧ (∀ rest r, producer m = GoFetch rest r → r = res)
  ∧ cap (msgChan m) = 1000%nat
  ∧ cap (errChan m) = 1%nat
  ∧ closed (msgChan m) = negb (fetching (producer m))
  ∧ closed (errChan m) = exited (producer m)
  ∧ match consumer m with
    | Ranging fr =>
        (∃ done,
            msgs = done ++ buf (msgChan m) ++ pending msgs (producer m)
            ∧ range_loop mbox ignoreMessageID listOnlyDups done fr0 = Some fr)
        ∧ err m = (if fetching (producer m) then None else res)
        ∧ buf (errChan m)
          = (if announced (producer m) then option_list res else [])
    | Receiving fr =>
        buf (msgChan m) = []
        ∧ fetching (producer m) = false
        ∧ range_loop mbox ignoreMessageID listOnlyDups msgs fr0 = Some fr
        ∧ err m = res
        ∧ buf (errChan m)
          = (if announced (producer m) then option_list res else [])
    | Returned fr =>
        buf (msgChan m) = []
        ∧ announced (producer m) = true
        ∧ range_loop mbox ignoreMessageID listOnlyDups msgs fr0 = Some fr
        ∧ err m = res
        ∧ buf (errChan m) = []
    | Panicked => False
    end.

(** The number of steps the two parties have still to take. *)
Definition todo (msgs : list imap.Message) (m : Machine) : nat :=
  (match producer m with
   | GoStart => length msgs + 4
   | GoFetch rest _ => length rest + 3
   | GoFetched => 2
   | GoClose => 1
   | GoExit => 0
   end
   + match consumer m with
     | Ranging _ =>
         length (buf (msgChan m)) + length (pending msgs (producer m)) + 2
     | Receiving _ => 1
     | Returned _ | Panicked => 0
     end)%nat.

(** *** Sample data *)

Definition alice : imap.Address := imap.mkAddress "Alice" "" "alice" "example.org".
Definition bob : imap.Address := imap.mkAddress "Bob" "" "bob" "example.net".

Definition env_a : imap.Envelope :=
  imap.mkEnvelope (time.mkTime "2020-01-01 00:00:00 +0000 UTC") "hello"
    [alice] [alice] [] [bob] [] [] "" "<1@example.org>".

(** [env_a] with another in-reply-to field. *)
Definition env_b : imap.Envelope :=
  imap.mkEnvelope (time.mkTime "2020-01-01 00:00:00 +0000 UTC") "hello"
    [alice] [alice] [] [bob] [] [] "<0@example.net>" "<1@example.org>".

(** [env_a] with another protocol message identifier. *)
Definition env_c : imap.Envelope :=
  imap.mkEnvelope (time.mkTime "2020-01-01 00:00:00 +0000 UTC") "hello"
    [alice] [alice] [] [bob] [] [] "" "<2@example.org>".

(** Four messages, the third a copy of the first and the fourth of the
    second. *)
Definition inbox : list imap.Message :=
  [ imap.mkMessage 1%N (Some env_a) 10%N;
    imap.mkMessage 2%N (Some env_c) 20%N;
    imap.mkMessage 3%N (Some env_a) 30%N;
    imap.mkMessage 4%N (Some env_c) 40%N ].

Definition status : imap.MailboxStatus := imap.mkMailboxStatus "INBOX" false 77%N.

(** A server that delivers [inbox] and then fails the fetch, and that
    refuses to mark identifier 20. *)
Definition flaky : client.Server :=
  client.mkServer
    (fun _ => inl status)
    (fun _ => (inbox, Some "connection closed"))
    (fun log =>
       match last log with
       | Some (client.CmdUidStore [imap.mkSeq 20%N 20%N] _ _) => Some "NO"
       | _ => None
       end)
    (fun _ => None).

(** A server on which no mailbox can be selected. *)
Definition locked : client.Server :=
  client.mkServer (fun _ => inr "NO such mailbox") (fun _ => ([], None))
    (fun _ => None) (fun _ => None).

(** A server that delivers [inbox] and fails nothing. *)
Definition steady : client.Server :=
  client.mkServer (fun _ => inl status) (fun _ => (inbox, None))
    (fun _ => None) (fun _ => None).

Definition session (srv : client.Server) : client.Client := client.mkClient srv [].

(** ** Further vocabulary *)

(** The value of a character of the base64 alphabet, -1 for any other. *)
Definition unsextet (ch : ascii) : Z :=
  let n := Z.of_N (N_of_ascii ch) in
  if (65 <=? n) && (n <=? 90) then n - 65
  else if (97 <=? n) && (n <=? 122) then n - 71
  else if (48 <=? n) && (n <=? 57) then n + 4
  else if n =? 43 then 62
  else if n =? 47 then 63
  else -1.

(** [Inv] without the assumption that every message has an envelope: the
    caller may have panicked, and then the loop over the whole stream
    panics; it did at the first message without envelope, and the messages
    after that one are queued or still to send. *)
Definition Inv_any (mbox : string) (ignoreMessageID listOnlyDups : bool)
    (c : client.Client) (fr0 : Frame) (msgs : list imap.Message)
    (res : option error) (m : Machine) : Prop :=
  conn m = (if started (producer m) then client.issue c fetch_request else c)
  ∧ (∀ rest r, producer m = GoFetch rest r → r = res)
  ∧ cap (msgChan m) = 1000%nat
  ∧ cap (errChan m) = 1%nat
  ∧ closed (msgChan m) = negb (fetching (producer m))
  ∧ closed (errChan m) = exited (producer m)
  ∧ match consumer m with
    | Ranging fr =>
        (∃ done,
            msgs = done ++ buf (msgChan m) ++ pending msgs (producer m)
            ∧ range_loop mbox ignoreMessageID listOnlyDups done fr0 = Some fr)
        ∧ err m = (if fetching (producer m) then None else res)
        ∧ buf (errChan m)
          = (if announced (producer m) then option_list res else [])
    | Receiving fr =>
        buf (msgChan m) = []
        ∧ fetching (producer m) = false
        ∧ range_loop mbox ignoreMessageID listOnlyDups msgs fr0 = Some fr
        ∧ err m = res
        ∧ buf (errChan m)
          = (if announced (producer m) then option_list res else [])
    | Returned fr =>
        buf (msgChan m) = []
        ∧ announced (producer m) = true
        ∧ range_loop mbox ignoreMessageID listOnlyDups msgs fr0 = Some fr
        ∧ err m = res
        ∧ buf (errChan m) = []
    | Panicked =>
        range_loop mbox ignoreMessageID listOnlyDups msgs fr0 = None
        ∧ started (producer m) = true
        ∧ ∃ done bad,
            msgs = done ++ bad :: buf (msgChan m) ++ pending msgs (producer m)
            ∧ is_Some (range_loop mbox ignoreMessageID listOnlyDups done fr0)
            ∧ imap.Envelope_ bad = None
    end.

(** The messages of a mailbox left once the identifiers [uids] are removed. *)
Definition kept (uids : list uint32) (msgs : list imap.Message)
    : list imap.Message :=
  filter (λ msg, imap.Uid msg ∉ uids) msgs.

(** [env_a] with other display names and another protocol identifier. *)
Definition env_d : imap.Envelope :=
  imap.mkEnvelope (time.mkTime "2020-01-01 00:00:00 +0000 UTC") "hello"
    [imap.mkAddress "A. Liddell" "" "alice" "example.org"]
    [imap.mkAddress "" "@relay" "alice" "example.org"] []
    [imap.mkAddress "Robert" "" "bob" "example.net"] [] [] "" "<9@example.org>".

(** A message whose FETCH response carried no envelope. *)
Definition bare : imap.Message := imap.mkMessage 3%N None 30%N.

(** A server that delivers a message without envelope between two others. *)
Definition broken : client.Server :=
  client.mkServer (fun _ => inl status)
    (fun _ => ([imap.mkMessage 1%N (Some env_a) 10%N; bare;
                imap.mkMessage 4%N (Some env_a) 40%N], None))
    (fun _ => None) (fun _ => None).


(** *** What FindDups prints *)

(** The output for one message with fingerprint [fp], [seen] telling whether
    the fingerprint had arrived before. *)
Definition line (mbox : string) (listOnlyDups : bool) (env : imap.Envelope)
    (uid : uint32) (fp : string) (seen : bool) : string :=
  if seen then
    report mbox env uid fp +:+ "duplicate" +:+ LF
      +:+ (if listOnlyDups then LF else "")
  else if listOnlyDups then ""
  else report mbox env uid fp +:+ LF.

(** The output for a stream, [earlier] listing the fingerprints that arrived
    before it; it ends at a message without envelope. *)
Fixpoint transcript (mbox : string) (ignoreMessageID listOnlyDups : bool)
    (earlier : list string) (msgs : list imap.Message) : string :=
  match msgs with
  | [] => ""
  | msg :: rest =>
      match imap.Envelope_ msg with
      | None => ""
      | Some env =>
          let fp := fingerprint ignoreMessageID env in
          line mbox listOnlyDups env (imap.Uid msg) fp (bool_decide (fp ∈ earlier))
            +:+ transcript mbox ignoreMessageID listOnlyDups (earlier ++ [fp]) rest
      end
  end.

(** *** The earlier version of the loop (main.go, second text, lines 317-363) *)

(** It has no flags: the protocol identifier is used when there is one, every
    message is reported by identifier and fingerprint, and a duplicate is
    marked with the word dup. *)
Definition loop_body_v0 (mbox : string) (fr : Frame) (msg : imap.Message)
    : option Frame :=
  match imap.Envelope_ msg with
  | None => None
  | Some env =>
      let messageID := imap.MessageId env in
      let messageID :=
        if decide (messageID = "") then
          let hash := sha1.New in
          base64.EncodeToString
            (sha1.Sum hash (list_byte_of_string (content env)))
        else messageID in
      let fr :=
        Print fr (mbox +:+ ": " +:+ pretty (imap.Uid msg) +:+ " "
                    +:+ messageID +:+ ":") in
      if decide (messageID ∈ uniqueIDs fr) then
        let fr := mkFrame (uniqueIDs fr) (dups fr ++ [imap.Uid msg]) (stdout fr) in
        Some (Print fr ("dup" +:+ LF))
      else
        let fr := Print fr LF in
        Some (mkFrame ({[messageID]} ∪ uniqueIDs fr) (dups fr) (stdout fr))
  end.

Fixpoint range_loop_v0 (mbox : string) (msgs : list imap.Message) (fr : Frame)
    : option Frame :=
  match msgs with
  | [] => Some fr
  | msg :: rest =>
      match loop_body_v0 mbox fr msg with
      | None => None
      | Some fr' => range_loop_v0 mbox rest fr'
      end
  end.

(** *** main *)

(** The flags after [flag.Parse()]. *)
Module flag.
Record Flags := mkFlags {
  username : string;
  password : string;
  server : string;
  mbox : string;
  listOnlyDups : bool;
  ignoreMessageID : bool;
  dryRun : bool }.
End flag.

(** What lies beyond the process: who answers a dial (TLS or plain, by
    address), and the replies to STARTTLS and LOGIN on the connection to that
    address. *)
Record Network := mkNetwork {
  DialTLS_reply : string → string → client.Server + error;
  Dial_reply : string → client.Server + error;
  StartTLS_reply : string → option error;
  Login_reply : string → string → string → option error }.

(** The calls the process makes on a session besides the commands of
    [client.Command]. *)
Inductive SessionEvent :=
| EvDialTLS (addr serverName : string)
| EvDial (addr : string)
| EvStartTLS (serverName : string)
| EvLogin (username password : string)
| EvLogout.

(** The process when [main] is over: the session events, the connection if
    one was made, what was printed, and whether [flag.Usage()] was called. *)
Record Process := mkProcess {
  events : list SessionEvent;
  connection : option client.Client;
  proc_stdout : string;
  proc_stderr : string;
  usage : bool }.

(** How [main] ends: it returns; it dies of a panic (the session events and
    the connection are then all that is told); it never ends, stuck in the
    deferred [c.Logout()], the last of [evs]; or the schedule ended first. *)
Inductive Exit :=
| Exited (p : Process)
| Crashed (evs : list SessionEvent) (conn : option client.Client)
| Hung (evs : list SessionEvent) (conn : option client.Client)
| Unfinished.

(** The goroutine of [FindDups] once the caller has panicked (it has then
    received a message, so the fetch is under way or over). Nobody receives
    on [msgChan] any more: [c.UidFetch] returns only if the messages it has
    still to send fit in the buffer beside those queued there, and else
    stays blocked on a send for good. *)
Definition fetch_returns (m : Machine) : bool :=
  match producer m with
  | GoFetch rest _ =>
      (length (buf (msgChan m)) + length rest <=? cap (msgChan m))%nat
  | _ => true
  end.

(** [fmt.Fprintf(os.Stderr, "cannot find duplicates: %s\n", err)] *)
Definition complaint (e : error) : string :=
  "cannot find duplicates: " +:+ e +:+ LF.

Definition main (sched : list bool) (net : Network) (f : flag.Flags) : Exit :=
  let username := flag.username f in
  let password := flag.password f in
  let server := flag.server f in
  let mbox := flag.mbox f in
  if decide (username = "" ∨ password = "" ∨ server = "" ∨ mbox = "") then
    Exited (mkProcess [] None "" "" true)
  else
    let port := 0 in
    let useTLS := true in
    let useStartTLS := false in
    let port := if port =? 0 then (if useTLS then 993 else 143) else port in
    let connectionString := server +:+ ":" +:+ pretty port in
    let '(dial, dialled) :=
      if useTLS
      then (EvDialTLS connectionString server,
            DialTLS_reply net connectionString server)
      else (EvDial connectionString, Dial_reply net connectionString) in
    match dialled with
    | inr _ => Crashed [dial] None
    | inl srv =>
        let c := client.mkClient srv [] in
        let '(evs, secured) :=
          if useStartTLS
          then ([dial; EvStartTLS server], StartTLS_reply net connectionString)
          else ([dial], None) in
        match secured with
        | Some _ => Crashed evs (Some c)
        | None =>
            let evs := evs ++ [EvLogin username password] in
            match Login_reply net connectionString username password with
            | Some _ => Crashed evs (Some c)
            | None =>
                (* defer c.Logout() *)
                let evs := evs ++ [EvLogout] in
                match FindDups_run sched c "" mbox (flag.ignoreMessageID f)
                        (flag.listOnlyDups f) with
                | (c, inl e) =>
                    Exited (mkProcess evs (Some c) "" (complaint e) false)
                | (c, inr m) =>
                    match consumer m with
                    | Ranging _ | Receiving _ => Unfinished
                    | Panicked =>
                        (* the panic unwinds main and runs the deferred
                           c.Logout(), which is answered after the fetch
                           still in progress on the connection *)
                        if fetch_returns m then Crashed evs (Some c)
                        else Hung evs (Some c)
                    | Returned fr =>
                        match err m with
                        | Some e =>
                            Exited (mkProcess evs (Some c) (stdout fr)
                                      (complaint e) false)
                        | None =>
                            let uids := dups fr in
                            if negb (flag.dryRun f) then
                              let out :=
                                stdout fr +:+ "will remove " +:+ pretty (length uids)
                                  +:+ " messages" +:+ LF in
                              match RemoveDups c mbox uids with
                              | (c, Some e) =>
                                  Exited (mkProcess evs (Some c) out
                                            (complaint e) false)
                              | (c, None) =>
                                  Exited (mkProcess evs (Some c)
                                            (out +:+ "done" +:+ LF) "" false)
                              end
                            else
                              Exited (mkProcess evs (Some c)
                                        (stdout fr +:+ "would have removed "
                                           +:+ pretty (length uids)
                                           +:+ " messages" +:+ LF) "" false)
                        end
                    end
                end
            end
        end
    end.

(** The connection [main] ends with, if it made one. *)
Definition end_connection (x : Exit) : option client.Client :=
  match x with
  | Exited p => connection p
  | Crashed _ c | Hung _ c => c
  | Unfinished => None
  end.

(** The session events of a run of [main]. *)
Definition end_events (x : Exit) : list SessionEvent :=
  match x with
  | Exited p => events p
  | Crashed evs _ | Hung evs _ => evs
  | Unfinished => []
  end.

(** A network on which every address is answered by [srv] and every login
    accepted. *)
Definition lan (srv : client.Server) : Network :=
  mkNetwork (fun _ _ => inl srv) (fun _ => inl srv) (fun _ => None)
    (fun _ _ _ => None).

Definition flags_of (dry : bool) : flag.Flags :=
  flag.mkFlags "alice" "secret" "imap.example.org" "INBOX" false false dry.

(** * Properties *)

(** ** The library models against published test vectors *)

Example sha1_empty :
  base64.EncodeToString (sha1.digest []) = "2jmj7l5rSw0yVb/vlWAYkK/YBwk=".
Proof. vm_compute. reflexivity. Qed.

Example sha1_abc :
  base64.EncodeToString (sha1.digest (list_byte_of_string "abc"))
  = "qZk+NkcGgWq6PiVxeFDCbJzQ2J0=".
Proof. vm_compute. reflexivity. Qed.

(** A message of two blocks (RFC 3174, test 2). *)
Example sha1_two_blocks :
  base64.EncodeToString
    (sha1.digest (list_byte_of_string
       "abcdbcdecdefdefgefghfghighijhijkijkljklmklmnlmnomnopnopq"))
  = "hJg+RBw70m66rkqh+VEp5eVGcPE=".
Proof. vm_compute. reflexivity. Qed.

Example base64_padding :
  base64.EncodeToString (list_byte_of_string "f") = "Zg=="
  ∧ base64.EncodeToString (list_byte_of_string "fo") = "Zm8="
  ∧ base64.EncodeToString (list_byte_of_string "foobar") = "Zm9vYmFy".
Proof. vm_compute. auto. Qed.

(** ** The fingerprint *)

Lemma fingerprint_hashed env : fingerprint true env
  = base64.EncodeToString (list_byte_of_string (content env) ++ sha1.digest []).
Proof. reflexivity. Qed.

Lemma fingerprint_unfold ig env :
  fingerprint ig env =
    if decide ((if ig then "" else imap.MessageId env) = "")
    then base64.EncodeToString (list_byte_of_string (content env) ++ sha1.digest [])
    else imap.MessageId env.
Proof.
  unfold fingerprint. destruct ig; simpl; [reflexivity|].
  destruct (decide _); reflexivity.
Qed.

(** C2: in use-protocol-id mode ([ignoreMessageID = false]) an envelope with a
    non-empty protocol message identifier has that identifier, unchanged, as
    its fingerprint. *)
Theorem fingerprint_protocol_id (env : imap.Envelope) :
  imap.MessageId env ≠ "" →
  fingerprint false env = imap.MessageId env.
Proof.
  intros Hne. rewrite fingerprint_unfold.
  destruct (decide _) as [Heq|_]; [contradiction|reflexivity].
Qed.

Lemma fingerprint_protocol_id_witness :
  fingerprint false env_a = "<1@example.org>".
Proof. apply (fingerprint_protocol_id env_a). discriminate. Defined.

(** The text that is encoded reads the envelope only through these fields. *)
Lemma content_congruence (E1 E2 : imap.Envelope) :
  time.String (imap.Date E1) = time.String (imap.Date E2) →
  imap.Subject E1 = imap.Subject E2 →
  imap.From E1 = imap.From E2 →
  imap.Sender E1 = imap.Sender E2 →
  imap.ReplyTo E1 = imap.ReplyTo E2 →
  imap.To E1 = imap.To E2 →
  imap.Cc E1 = imap.Cc E2 →
  imap.Bcc E1 = imap.Bcc E2 →
  imap.InReplyTo E1 = imap.InReplyTo E2 →
  content E1 = content E2.
Proof.
  intros Hd Hs Hf Hse Hr Ht Hc Hb Hi. unfold content.
  rewrite Hd, Hs, Hf, Hse, Hr, Ht, Hc, Hb, Hi. reflexivity.
Qed.

(** C5, as stated: equal subject, timestamp string and address lists in
    every role do not make the content-hash fingerprints equal, the
    in-reply-to field is part of the text too. *)
Lemma fingerprint_in_reply_to_counterexample :
  ¬ (∀ E1 E2 : imap.Envelope,
       imap.Subject E1 = imap.Subject E2 →
       time.String (imap.Date E1) = time.String (imap.Date E2) →
       imap.From E1 = imap.From E2 →
       imap.Sender E1 = imap.Sender E2 →
       imap.ReplyTo E1 = imap.ReplyTo E2 →
       imap.To E1 = imap.To E2 →
       imap.Cc E1 = imap.Cc E2 →
       imap.Bcc E1 = imap.Bcc E2 →
       fingerprint true E1 = fingerprint true E2).
Proof.
  intros H.
  specialize (H env_a env_b eq_refl eq_refl eq_refl eq_refl eq_refl eq_refl
                eq_refl eq_refl).
  vm_compute in H. discriminate H.
Qed.

(** C5, amended: envelopes with equal subject, timestamp string, address
    lists in each of the six roles read and equal in-reply-to field have
    equal fingerprints in content-hash mode ([ignoreMessageID = true]). *)
Theorem fingerprint_content_hash (E1 E2 : imap.Envelope) :
  imap.Subject E1 = imap.Subject E2 →
  time.String (imap.Date E1) = time.String (imap.Date E2) →
  imap.From E1 = imap.From E2 →
  imap.Sender E1 = imap.Sender E2 →
  imap.ReplyTo E1 = imap.ReplyTo E2 →
  imap.To E1 = imap.To E2 →
  imap.Cc E1 = imap.Cc E2 →
  imap.Bcc E1 = imap.Bcc E2 →
  imap.InReplyTo E1 = imap.InReplyTo E2 →
  fingerprint true E1 = fingerprint true E2.
Proof.
  intros Hs Hd Hf Hse Hr Ht Hc Hb Hi.
  rewrite !fingerprint_hashed.
  rewrite (content_congruence E1 E2) by assumption. reflexivity.
Qed.

Lemma fingerprint_content_hash_witness :
  env_a ≠ env_c ∧ fingerprint true env_a = fingerprint true env_c.
Proof.
  split; [discriminate|].
  apply (fingerprint_content_hash env_a env_c); reflexivity.
Defined.

(** C6: on [env_a] in content-hash mode the value encoded is the text
    itself followed by the digest of the empty input, the hash having been
    written nothing; it is not the encoded digest of the text. *)
Theorem fingerprint_appends_empty_digest :
  fingerprint true env_a
  = base64.EncodeToString
      (list_byte_of_string (content env_a) ++ sha1.digest [])
  ∧ sha1.digest [] = sha1.digest (sha1.written sha1.New)
  ∧ fingerprint true env_a ≠ digest_of_content env_a
  ∧ String.length (fingerprint true env_a) = 200%nat
  ∧ String.length (digest_of_content env_a) = 28%nat.
Proof.
  split; [reflexivity|]. split; [reflexivity|].
  split; [|split; vm_compute; reflexivity].
  vm_compute. discriminate.
Qed.

(** The same on every envelope: the value encoded is at least 25 bytes
    long, a digest is 20. *)
Lemma length_append (s1 s2 : string) :
  String.length (s1 +:+ s2) = (String.length s1 + String.length s2)%nat.
Proof. induction s1 as [|a s1 IH]; simpl; [reflexivity|]. rewrite IH. reflexivity. Qed.

Lemma length_list_byte_of_string (s : string) :
  length (list_byte_of_string s) = String.length s.
Proof.
  unfold list_byte_of_string. rewrite length_map.
  induction s as [|a s IH]; simpl; [reflexivity|]. rewrite IH. reflexivity.
Qed.

Lemma be_bytes_length n x : length (sha1.be_bytes n x) = n.
Proof. induction n as [|n IH]; simpl; [reflexivity|]. rewrite IH. reflexivity. Qed.

Lemma digest_length msg : length (sha1.digest msg) = 20%nat.
Proof. unfold sha1.digest. rewrite !length_app, !be_bytes_length. reflexivity. Qed.

Lemma div3_step (n : nat) : ((S (S (S n)) + 2) / 3 = S ((n + 2) / 3))%nat.
Proof.
  replace (S (S (S n)) + 2)%nat with (n + 2 + 1 * 3)%nat by lia.
  rewrite Nat.div_add by lia. lia.
Qed.

Lemma encode_triple (a b c : byte) (rest : list byte) :
  ∃ c1 c2 c3 c4,
    base64.encode (a :: b :: c :: rest)
    = String c1 (String c2 (String c3 (String c4 (base64.encode rest)))).
Proof. do 4 eexists. reflexivity. Qed.

Lemma list_ind3 (P : list byte → Prop) :
  P [] → (∀ a, P [a]) → (∀ a b, P [a; b]) →
  (∀ a b c rest, P rest → P (a :: b :: c :: rest)) →
  ∀ src, P src.
Proof.
  intros H0 H1 H2 H3 src.
  cut (P src ∧ (∀ a, P (a :: src)) ∧ (∀ a b, P (a :: b :: src))).
  { intros [H _]; exact H. }
  induction src as [|c src (IH0 & IH1 & IH2)]; auto.
Qed.

Lemma encode_length_step (a b c : byte) (rest : list byte) :
  String.length (base64.encode rest) = (4 * ((length rest + 2) / 3))%nat →
  String.length (base64.encode (a :: b :: c :: rest))
  = (4 * ((length (a :: b :: c :: rest) + 2) / 3))%nat.
Proof.
  intros IH. destruct (encode_triple a b c rest) as (c1 & c2 & c3 & c4 & Heq).
  rewrite Heq. 
  change (S (S (S (S (String.length (base64.encode rest))))) = (4 * ((S (S (S (length rest))) + 2) / 3))%nat).
  rewrite IH, div3_step.
  generalize ((length rest + 2) / 3)%nat. intros q. lia.
Qed.

Lemma encode_length (src : list byte) :
  String.length (base64.EncodeToString src) = (4 * ((length src + 2) / 3))%nat.
Proof.
  unfold base64.EncodeToString. revert src. apply list_ind3.
  - reflexivity.
  - intros a. reflexivity.
  - intros a b. reflexivity.
  - exact encode_length_step.
Qed.

Lemma write_addresses_length tag addrs : ∀ builder,
  (String.length builder ≤ String.length (write_addresses tag addrs builder))%nat.
Proof.
  unfold write_addresses.
  induction addrs as [|f addrs IH]; intros builder; simpl; [lia|].
  etrans; [|apply IH]. unfold WriteString. rewrite !length_append. lia.
Qed.

Lemma content_length env : (5 ≤ String.length (content env))%nat.
Proof.
  unfold content, Builder_String.
  unfold WriteString at 1. rewrite length_append.
  unfold WriteString at 1. rewrite length_append.
  repeat (etrans; [|apply write_addresses_length]).
  unfold WriteString. rewrite !length_append. simpl. lia.
Qed.

Lemma fingerprint_never_digest env :
  fingerprint true env ≠ digest_of_content env.
Proof.
  intros Heq. apply (f_equal String.length) in Heq.
  rewrite fingerprint_hashed in Heq. unfold digest_of_content in Heq.
  rewrite !encode_length, length_app, !digest_length,
    length_list_byte_of_string in Heq.
  pose proof (content_length env) as Hlen.
  change ((20 + 2) / 3)%nat with 7%nat in Heq.
  assert (9 ≤ (String.length (content env) + 20 + 2) / 3)%nat as Hdiv
    by (apply Nat.div_le_lower_bound; lia).
  lia.
Qed.

(** ** RemoveDups *)

Section Marking.

Variable srv : client.Server.

Lemma mark_reply_cons log uid uids k :
  mark_reply srv log (uid :: uids) (S k) = mark_reply srv (log ++ [mark_request uid]) uids k.
Proof. unfold mark_reply. simpl. rewrite <- app_assoc. reflexivity. Qed.

Lemma mark_loop_cons log uid uids :
  mark_loop (client.mkClient srv log) (uid :: uids)
  = match mark_reply srv log (uid :: uids) 0 with
    | Some e => (client.mkClient srv (log ++ [mark_request uid]), Some e)
    | None => mark_loop (client.mkClient srv (log ++ [mark_request uid])) uids
    end.
Proof.
  unfold mark_reply. simpl.
  destruct (client.store_reply srv _); reflexivity.
Qed.

(** Every mark succeeds: all were sent, in order. *)
Lemma mark_loop_all uids : ∀ log,
  (∀ k, (k < length uids)%nat → mark_reply srv log uids k = None) →
  mark_loop (client.mkClient srv log) uids
  = (client.mkClient srv (log ++ map mark_request uids), None).
Proof.
  induction uids as [|uid uids IH]; intros log Hok.
  - simpl. rewrite app_nil_r. reflexivity.
  - rewrite mark_loop_cons, (Hok 0%nat) by (simpl; lia).
    rewrite IH.
    + simpl. rewrite <- app_assoc. reflexivity.
    + intros k Hk. rewrite <- mark_reply_cons. apply Hok. simpl. lia.
Qed.

(** The first failing mark is the last command sent. *)
Lemma mark_loop_first_failure uids : ∀ log k e,
  (k < length uids)%nat →
  (∀ j, (j < k)%nat → mark_reply srv log uids j = None) →
  mark_reply srv log uids k = Some e →
  mark_loop (client.mkClient srv log) uids
  = (client.mkClient srv (log ++ map mark_request (take (S k) uids)), Some e).
Proof.
  induction uids as [|uid uids IH]; intros log k e Hk Hbefore Hfail.
  - simpl in Hk. lia.
  - rewrite mark_loop_cons. destruct k as [|k].
    + rewrite Hfail. reflexivity.
    + rewrite (Hbefore 0%nat) by lia.
      rewrite (IH _ k e).
      * simpl. rewrite <- app_assoc. reflexivity.
      * simpl in Hk. lia.
      * intros j Hj. rewrite <- mark_reply_cons. apply Hbefore. lia.
      * rewrite <- mark_reply_cons. exact Hfail.
Qed.

(** The loop ends without error only when no mark failed. *)
Lemma mark_loop_success uids : ∀ log c',
  mark_loop (client.mkClient srv log) uids = (c', None) →
  ∀ k, (k < length uids)%nat → mark_reply srv log uids k = None.
Proof.
  induction uids as [|uid uids IH]; intros log c' Hrun k Hk.
  - simpl in Hk. lia.
  - rewrite mark_loop_cons in Hrun.
    destruct (mark_reply srv log (uid :: uids) 0) as [e|] eqn:H0; [discriminate|].
    destruct k as [|k]; [exact H0|].
    rewrite mark_reply_cons. apply (IH _ _ Hrun). simpl in Hk. lia.
Qed.

End Marking.

Lemma RemoveDups_unfold c mbox uids :
  RemoveDups c mbox uids
  = let log := client.sent c ++ [select_request mbox] in
    match client.select_reply (client.server c) log with
    | inr e => (client.mkClient (client.server c) log, Some e)
    | inl _ =>
        match mark_loop (client.mkClient (client.server c) log) uids with
        | (c', Some e) => (c', Some e)
        | (c', None) => client.Expunge c'
        end
    end.
Proof. reflexivity. Qed.

(** C4: after the selection, the marks are sent one per identifier in list
    order; when the mark of the [k]-th identifier is the first to fail, that
    failure is returned and the commands sent are the selection and the marks
    of the first [k+1] identifiers, so no later mark and no purge; when no
    mark fails, all marks are followed by the purge, whose reply is the
    result; and a nil result means every mark and the purge succeeded. *)
Theorem RemoveDups_marks_in_order (c : client.Client) (mbox : string)
    (uids : list uint32) (st : imap.MailboxStatus) :
  let srv := client.server c in
  let log := client.sent c ++ [select_request mbox] in
  let all := log ++ map mark_request uids ++ [client.CmdExpunge] in
  client.select_reply srv log = inl st →
  (∀ k e, (k < length uids)%nat →
     (∀ j, (j < k)%nat → mark_reply srv log uids j = None) →
     mark_reply srv log uids k = Some e →
     RemoveDups c mbox uids
     = (client.mkClient srv (log ++ map mark_request (take (S k) uids)), Some e))
  ∧ ((∀ k, (k < length uids)%nat → mark_reply srv log uids k = None) →
     RemoveDups c mbox uids
     = (client.mkClient srv all, client.expunge_reply srv all))
  ∧ ((RemoveDups c mbox uids).2 = None →
     (∀ k, (k < length uids)%nat → mark_reply srv log uids k = None)
     ∧ client.expunge_reply srv all = None
     ∧ client.sent (RemoveDups c mbox uids).1 = all).
Proof.
  intros srv log all Hsel. rewrite RemoveDups_unfold. simpl.
  fold srv log. rewrite Hsel. split; [|split].
  - intros k e Hk Hbefore Hfail.
    rewrite (mark_loop_first_failure srv uids log k e Hk Hbefore Hfail).
    reflexivity.
  - intros Hok. rewrite (mark_loop_all srv uids log Hok).
    unfold client.Expunge, client.issue. simpl.
    rewrite <- app_assoc. reflexivity.
  - destruct (mark_loop (client.mkClient srv log) uids) as [c' [e|]] eqn:Hrun;
      [discriminate|].
    intros Hres.
    pose proof (mark_loop_success srv uids log c' Hrun) as Hok.
    rewrite (mark_loop_all srv uids log Hok) in Hrun.
    injection Hrun as <-.
    unfold client.Expunge, client.issue in *. simpl in *.
    rewrite <- app_assoc in Hres. rewrite <- app_assoc. auto.
Qed.

(** Identifiers 10, 20, 30 where marking 20 fails: 10 and 20 are marked,
    30 is not, nothing is purged. *)
Lemma RemoveDups_marks_in_order_witness :
  RemoveDups (session flaky) "INBOX" [10; 20; 30]%N
  = (client.mkClient flaky
       [select_request "INBOX"; mark_request 10%N; mark_request 20%N], Some "NO").
Proof.
  refine (proj1 (RemoveDups_marks_in_order (session flaky) "INBOX"
                   [10; 20; 30]%N status eq_refl) 1%nat "NO" _ _ eq_refl).
  - simpl. lia.
  - intros [|j] Hj; [reflexivity|lia].
Defined.

(** C9: with an empty identifier list and a successful selection, the
    commands sent are the selection and the purge, and the purge's reply is
    the result. *)
Theorem RemoveDups_empty_list (c : client.Client) (mbox : string)
    (st : imap.MailboxStatus) :
  let srv := client.server c in
  let all := client.sent c ++ [select_request mbox; client.CmdExpunge] in
  client.select_reply srv (client.sent c ++ [select_request mbox]) = inl st →
  RemoveDups c mbox [] = (client.mkClient srv all, client.expunge_reply srv all).
Proof.
  intros srv all Hsel. rewrite RemoveDups_unfold. simpl.
  fold srv. rewrite Hsel.
  unfold client.Expunge, client.issue. simpl.
  rewrite <- app_assoc. reflexivity.
Qed.

Lemma RemoveDups_empty_list_witness :
  RemoveDups (session flaky) "INBOX" []
  = (client.mkClient flaky [select_request "INBOX"; client.CmdExpunge], None).
Proof.
  exact (RemoveDups_empty_list (session flaky) "INBOX" status eq_refl).
Defined.

(** C10: when the selection fails, that failure is returned and the
    selection is the only command sent: no mark, no purge. *)
Theorem RemoveDups_select_failure (c : client.Client) (mbox : string)
    (uids : list uint32) (e : error) :
  let srv := client.server c in
  let log := client.sent c ++ [select_request mbox] in
  client.select_reply srv log = inr e →
  RemoveDups c mbox uids = (client.mkClient srv log, Some e).
Proof.
  intros srv log Hsel. rewrite RemoveDups_unfold. simpl.
  fold srv log. rewrite Hsel. reflexivity.
Qed.

Lemma RemoveDups_select_failure_witness :
  RemoveDups (session locked) "INBOX" [10; 20; 30]%N
  = (client.mkClient locked [select_request "INBOX"], Some "NO such mailbox").
Proof.
  exact (RemoveDups_select_failure (session locked) "INBOX" [10; 20; 30]%N
           "NO such mailbox" eq_refl).
Defined.

(** ** FindDups: the classification loop *)

Section Loop.

Variables (mbox : string) (ignoreMessageID listOnlyDups : bool).

Local Abbreviation body := (loop_body mbox ignoreMessageID listOnlyDups).
Local Abbreviation loop := (range_loop mbox ignoreMessageID listOnlyDups).

(** The two branches of the body, standard output aside. *)
Lemma loop_body_branches fr msg env :
  imap.Envelope_ msg = Some env →
  let fp := fingerprint ignoreMessageID env in
  ∃ out,
    body fr msg
    = Some (if decide (fp ∈ uniqueIDs fr)
            then mkFrame (uniqueIDs fr) (dups fr ++ [imap.Uid msg]) out
            else mkFrame ({[fp]} ∪ uniqueIDs fr) (dups fr) out).
Proof.
  intros Henv fp. unfold loop_body. rewrite Henv. fold fp.
  destruct listOnlyDups; simpl;
    destruct (decide (fp ∈ uniqueIDs fr)); simpl; eexists; reflexivity.
Qed.

Lemma range_loop_app pre post fr :
  loop (pre ++ post) fr
  = match loop pre fr with
    | Some fr' => loop post fr'
    | None => None
    end.
Proof.
  revert fr. induction pre as [|msg pre IH]; intros fr; simpl; [reflexivity|].
  destruct (body fr msg); [apply IH|reflexivity].
Qed.

Lemma records_app ig (pre post : list imap.Message) :
  records ig (pre ++ post) = records ig pre ++ records ig post.
Proof. unfold records. apply omap_app. Qed.

(** The loop from a frame whose Seen Set holds the fingerprints [earlier]. *)
Lemma range_loop_spec msgs : ∀ fr earlier,
  Forall (λ msg, is_Some (imap.Envelope_ msg)) msgs →
  uniqueIDs fr = list_to_set earlier →
  ∃ fr',
    loop msgs fr = Some fr'
    ∧ dups fr' = dups fr ++ duplicate_list earlier (records ignoreMessageID msgs)
    ∧ uniqueIDs fr' = list_to_set (earlier ++ (records ignoreMessageID msgs).*1)
    ∧ (size (uniqueIDs fr') + length (dups fr')
       = size (uniqueIDs fr) + length (dups fr) + length msgs)%nat.
Proof.
  induction msgs as [|msg msgs IH]; intros fr earlier Hall Hseen.
  - exists fr. simpl. rewrite !app_nil_r. auto.
  - apply Forall_cons in Hall as [[env Henv] Hall].
    destruct (loop_body_branches fr msg env Henv) as [out Hbody].
    set (fp := fingerprint ignoreMessageID env) in *.
    simpl. rewrite Hbody. unfold records. simpl. rewrite Henv. simpl.
    fold fp. fold (records ignoreMessageID msgs).
    destruct (decide (fp ∈ uniqueIDs fr)) as [Hin|Hin].
    + destruct (IH (mkFrame (uniqueIDs fr) (dups fr ++ [imap.Uid msg]) out)
                  (earlier ++ [fp]) Hall) as (fr' & Hrun & Hd & Hu & Hn).
      { simpl. rewrite list_to_set_app_L, <- Hseen. simpl.
        rewrite (right_id_L ∅ (∪)), (comm_L (∪)). symmetry.
        apply subseteq_union_1_L, singleton_subseteq_l. exact Hin. }
      exists fr'. simpl in *. split; [exact Hrun|].
      rewrite bool_decide_eq_true_2
        by (rewrite Hseen in Hin; apply elem_of_list_to_set in Hin; exact Hin).
      split; [rewrite Hd, <- app_assoc; reflexivity|].
      split; [rewrite Hu, <- app_assoc; reflexivity|].
      rewrite Hn, length_app. simpl. lia.
    + destruct (IH (mkFrame ({[fp]} ∪ uniqueIDs fr) (dups fr) out)
                  (earlier ++ [fp]) Hall) as (fr' & Hrun & Hd & Hu & Hn).
      { simpl. rewrite list_to_set_app_L, <- Hseen. simpl.
        rewrite (right_id_L ∅ (∪)). apply (comm_L (∪)). }
      exists fr'. simpl in *. split; [exact Hrun|].
      rewrite bool_decide_eq_false_2
        by (rewrite Hseen in Hin; rewrite elem_of_list_to_set in Hin; exact Hin).
      split; [rewrite Hd; reflexivity|].
      split; [rewrite Hu, <- app_assoc; reflexivity|].
      rewrite Hn, size_union, size_singleton
        by (apply disjoint_singleton_l; exact Hin).
      lia.
Qed.

(** One arrival: the Seen Set on arrival holds the fingerprints of the
    records before it; a fingerprint in it sends the identifier to the
    Duplicate List and leaves the set alone, a fingerprint not in it is
    inserted and the list left alone. *)
Lemma range_loop_arrival pre msg env fr0 :
  Forall (λ msg, is_Some (imap.Envelope_ msg)) pre →
  imap.Envelope_ msg = Some env →
  uniqueIDs fr0 = ∅ →
  let fp := fingerprint ignoreMessageID env in
  ∃ fr1 fr2,
    loop pre fr0 = Some fr1
    ∧ body fr1 msg = Some fr2
    ∧ uniqueIDs fr1 = list_to_set (records ignoreMessageID pre).*1
    ∧ if decide (fp ∈ (records ignoreMessageID pre).*1)
      then uniqueIDs fr2 = uniqueIDs fr1
           ∧ dups fr2 = dups fr1 ++ [imap.Uid msg]
      else ((fp ∉ uniqueIDs fr1)
            ∧ uniqueIDs fr2 = {[fp]} ∪ uniqueIDs fr1
            ∧ dups fr2 = dups fr1).
Proof.
  intros Hpre Henv Hempty fp.
  destruct (range_loop_spec pre fr0 [] Hpre) as (fr1 & Hrun & _ & Hu & _);
    [rewrite Hempty; reflexivity|].
  simpl in Hu.
  destruct (loop_body_branches fr1 msg env Henv) as [out Hbody]. fold fp in Hbody.
  exists fr1. eexists. split; [exact Hrun|]. split; [exact Hbody|].
  split; [exact Hu|].
  destruct (decide (fp ∈ (records ignoreMessageID pre).*1)) as [Hin|Hin].
  - rewrite decide_True by (rewrite Hu; apply elem_of_list_to_set; exact Hin).
    simpl. auto.
  - assert (fp ∉ uniqueIDs fr1) as Hnot
      by (rewrite Hu, elem_of_list_to_set; exact Hin).
    rewrite decide_False by exact Hnot. simpl. auto.
Qed.

End Loop.

(** ** FindDups: the goroutine and the caller *)

Lemma fetch_request_eq : client.CmdUidFetch seqset_all items = fetch_request.
Proof. reflexivity. Qed.

Section Run.

Variables (mbox : string) (ignoreMessageID listOnlyDups : bool).
Variables (c : client.Client) (fr0 : Frame).
Variables (msgs : list imap.Message) (res : option error).

Hypothesis fetch_reply_eq :
  client.fetch_reply (client.server c) (client.sent c ++ [fetch_request])
  = (msgs, res).
Hypothesis all_enveloped : Forall (λ msg, is_Some (imap.Envelope_ msg)) msgs.

Local Abbreviation body := (loop_body mbox ignoreMessageID listOnlyDups).
Local Abbreviation loop := (range_loop mbox ignoreMessageID listOnlyDups).
Local Abbreviation I := (Inv mbox ignoreMessageID listOnlyDups c fr0 msgs res).
Local Abbreviation kstep := (consumer_step mbox ignoreMessageID listOnlyDups).

Lemma spawn_inv out : fr0 = mkFrame ∅ [] out → I (spawn c out).
Proof.
  intros ->. unfold Inv. simpl. repeat split; try discriminate.
  exists []. simpl. auto.
Qed.

Lemma spawn_todo out : todo msgs (spawn c out) = (2 * length msgs + 6)%nat.
Proof. unfold todo. simpl. lia. Qed.

Lemma producer_step_inv m m' :
  I m → producer_step m = Some m' → I m' ∧ todo msgs m = S (todo msgs m').
Proof.
  destruct m as [cn e [mb mcap mcl] [eb ecap ecl] p k].
  unfold Inv, producer_step, todo. simpl.
  intros (Hconn & Hres & Hmcap & Hecap & Hmcl & Hecl & Hk) Hstep.
  subst cn mcap ecap mcl ecl.
  destruct k as [fr|fr|fr|]; [| | |contradiction]; simpl in Hstep;
    (destruct p as [|[|msg rest] r| | |]); simpl in *;
    try discriminate Hstep;
    try (pose proof (Hres _ _ eq_refl); subst r);
    try (rewrite fetch_request_eq in Hstep;
         unfold client.UidFetch_issue, client.issue in Hstep;
         simpl in Hstep; rewrite fetch_reply_eq in Hstep);
    destruct_and?; try discriminate; subst;
    try (destruct res as [e0|]; simpl in Hstep);
    try (destruct (length mb <? 1000)%nat eqn:Hroom; [|discriminate Hstep]);
    injection Hstep as <-; simpl;
    (split; [|rewrite ?length_app; simpl; lia]);
    split_and?; try reflexivity; try discriminate; try congruence.
  all: destruct H as (done & Hsplit & Hloop); exists done;
    (split; [rewrite Hsplit, <- app_assoc; reflexivity|exact Hloop]).
Qed.

Lemma body_enveloped fr msg :
  msg ∈ msgs → is_Some (body fr msg).
Proof.
  intros Hin.
  destruct (proj1 (Forall_forall _ _) all_enveloped msg Hin) as [env Henv].
  destruct (loop_body_branches mbox ignoreMessageID listOnlyDups fr msg env Henv)
    as [out ->].
  eauto.
Qed.

Lemma consumer_step_inv m m' :
  I m → kstep m = Some m' → I m' ∧ todo msgs m = S (todo msgs m').
Proof.
  destruct m as [cn e [mb mcap mcl] [eb ecap ecl] p k].
  unfold Inv, consumer_step, todo. simpl.
  intros (Hconn & Hres & Hmcap & Hecap & Hmcl & Hecl & Hk) Hstep.
  subst cn mcap ecap mcl ecl.
  destruct k as [fr|fr|fr|]; [| | |contradiction]; simpl in Hstep.
  - destruct Hk as ((done & Hsplit & Hloop) & He & Heb).
    destruct mb as [|msg mb].
    + destruct (fetching p) eqn:Hp; simpl in Hstep; [discriminate|].
      injection Hstep as <-. simpl. rewrite Hp.
      assert (pending msgs p = []) as Hnil by (destruct p; try discriminate; reflexivity).
      rewrite Hnil in *. simpl in *. rewrite app_nil_r in Hsplit. subst done.
      split; [|lia]. split_and?; auto.
    + destruct (body_enveloped fr msg) as [fr' Hbody].
      { rewrite Hsplit, !elem_of_app, elem_of_cons. auto. }
      rewrite Hbody in Hstep. injection Hstep as <-. simpl.
      split; [|lia]. split_and?; auto.
      exists (done ++ [msg]). split.
      * etrans; [exact Hsplit|]. rewrite <- app_assoc. reflexivity.
      * rewrite range_loop_app, Hloop. simpl. rewrite Hbody. reflexivity.
  - destruct Hk as (Hmb & Hp & Hloop & He & Heb). subst mb e.
    destruct eb as [|e eb].
    + destruct p; try discriminate; simpl in *; try discriminate;
        (destruct res; [discriminate|]);
        injection Hstep as <-; simpl; (split; [|lia]); split_and?; auto.
    + injection Hstep as <-. simpl.
      destruct p; try discriminate; simpl in *; try discriminate;
        (destruct res as [e0|]; [|discriminate]);
        injection Heb as -> ->; (split; [|lia]); split_and?; auto.
  - discriminate.
Qed.

(** No deadlock: when neither party can move, the caller has returned. *)
Lemma progress m :
  I m → producer_step m = None → kstep m = None →
  ∃ fr, consumer m = Returned fr.
Proof.
  destruct m as [cn e [mb mcap mcl] [eb ecap ecl] p k].
  unfold Inv, producer_step, consumer_step. simpl.
  intros (Hconn & Hres & Hmcap & Hecap & Hmcl & Hecl & Hk) Hp Hc.
  subst cn mcap ecap mcl ecl.
  destruct k as [fr|fr|fr|]; [| |eauto|contradiction]; simpl in Hp, Hc.
  - destruct Hk as (_ & He & Heb).
    destruct mb as [|msg mb]; [|destruct (body fr msg); discriminate].
    destruct p as [|[|msg rest] r| | |]; simpl in *; try discriminate.
    destruct (client.fetch_reply _ _). discriminate.
  - destruct Hk as (Hmb & Hfetch & _ & He & Heb).
    destruct p as [|[|msg rest] r| | |]; simpl in *; try discriminate.
    + subst. destruct res; discriminate.
    + subst. destruct res; discriminate.
Qed.

Lemma exec_inv sched : ∀ m, I m → I (exec mbox ignoreMessageID listOnlyDups sched m).
Proof.
  induction sched as [|turn sched IH]; intros m Hm; simpl; [exact Hm|].
  destruct (producer_step m) as [mp|] eqn:Hp;
    destruct (kstep m) as [mk|] eqn:Hk; destruct turn; auto;
    apply IH;
    first [exact (proj1 (producer_step_inv m _ Hm Hp))
          |exact (proj1 (consumer_step_inv m _ Hm Hk))].
Qed.

(** Under every schedule at least as long as the steps left to take, the
    caller returns. *)
Lemma exec_returns sched : ∀ m,
  I m → (todo msgs m ≤ length sched)%nat →
  ∃ fr, consumer (exec mbox ignoreMessageID listOnlyDups sched m) = Returned fr.
Proof.
  induction sched as [|turn sched IH]; intros m Hm Hlen; simpl.
  - destruct m as [cn e mc ec p k]. unfold todo in Hlen. simpl in *.
    destruct Hm as (_ & _ & _ & _ & _ & _ & Hk). simpl in Hk.
    destruct k as [fr|fr|fr|]; [lia|lia|eauto|contradiction].
  - simpl in Hlen.
    destruct (producer_step m) as [mp|] eqn:Hp;
      destruct (kstep m) as [mk|] eqn:Hk; destruct turn;
      try (destruct (producer_step_inv m _ Hm Hp) as [Hm' Htodo];
           apply IH; [exact Hm'|lia]);
      try (destruct (consumer_step_inv m _ Hm Hk) as [Hm' Htodo];
           apply IH; [exact Hm'|lia]);
      exact (progress m Hm Hp Hk).
Qed.

(** What the caller returns with. *)
Lemma returned_outcome m fr :
  I m → consumer m = Returned fr →
  loop msgs fr0 = Some fr ∧ outcome m = Return (dups fr) res.
Proof.
  unfold Inv, outcome. intros (_ & _ & _ & _ & _ & _ & Hk) Hret.
  rewrite Hret in *. destruct Hk as (_ & _ & Hloop & He & _).
  rewrite He. auto.
Qed.

(** The same for every interleaving, step by step. *)
Lemma reachable_inv m m' :
  I m → rtc (step mbox ignoreMessageID listOnlyDups) m m' → I m'.
Proof.
  intros Hm Hrun. induction Hrun as [|m1 m2 m3 [Hp|Hk] _ IH]; [exact Hm| |].
  - apply IH. exact (proj1 (producer_step_inv m1 _ Hm Hp)).
  - apply IH. exact (proj1 (consumer_step_inv m1 _ Hm Hk)).
Qed.

(** Whatever the interleaving, a caller that has returned has classified
    the whole stream and holds the result of the fetch. *)
Lemma reachable_returned out m fr :
  fr0 = mkFrame ∅ [] out →
  rtc (step mbox ignoreMessageID listOnlyDups) (spawn c out) m →
  consumer m = Returned fr →
  loop msgs fr0 = Some fr ∧ outcome m = Return (dups fr) res.
Proof.
  intros Hfr0 Hrun Hret.
  apply (returned_outcome m fr); [|exact Hret].
  apply (reachable_inv (spawn c out)); [|exact Hrun].
  apply spawn_inv. exact Hfr0.
Qed.

End Run.

(** Every run under a schedule is an interleaving. *)
Lemma exec_reachable mbox ig lo sched : ∀ m,
  rtc (step mbox ig lo) m (exec mbox ig lo sched m).
Proof.
  induction sched as [|turn sched IH]; intros m; simpl; [apply rtc_refl|].
  destruct (producer_step m) as [mp|] eqn:Hp;
    destruct (consumer_step mbox ig lo m) as [mk|] eqn:Hk; destruct turn;
    try apply rtc_refl;
    (eapply rtc_l; [|apply IH]); unfold step; auto.
Qed.

(** *** The commands of a run *)

Lemma producer_step_conn m m' :
  producer_step m = Some m' →
  started (producer m') = true
  ∧ conn m' = if started (producer m) then conn m
              else client.issue (conn m) fetch_request.
Proof.
  destruct m as [cn e [mb mcap mcl] [eb ecap ecl] p k].
  unfold producer_step. simpl. destruct (is_Panicked k); [discriminate|].
  destruct p as [|[|msg rest] r| | |]; simpl.
  - rewrite fetch_request_eq. unfold client.UidFetch_issue.
    destruct (client.fetch_reply _ _). intros [= <-]. auto.
  - intros [= <-]. auto.
  - destruct (length mb <? mcap)%nat; intros [= <-]. auto.
  - destruct e; [destruct (length eb <? ecap)%nat|]; intros [= <-]; auto.
  - intros [= <-]. auto.
  - discriminate.
Qed.

Lemma consumer_step_conn mbox ig lo m m' :
  consumer_step mbox ig lo m = Some m' →
  producer m' = producer m ∧ conn m' = conn m.
Proof.
  destruct m as [cn e [mb mcap mcl] [eb ecap ecl] p k].
  unfold consumer_step. simpl. destruct k as [fr|fr|fr|]; try discriminate.
  - destruct mb; [destruct mcl|]; intros [= <-]; auto.
  - destruct eb; [destruct ecl|]; intros [= <-]; auto.
Qed.

Lemma step_conn mbox ig lo m m' :
  step mbox ig lo m m' →
  (started (producer m) = true → started (producer m') = true)
  ∧ conn m' = (if negb (started (producer m)) && started (producer m')
               then client.issue (conn m) fetch_request else conn m).
Proof.
  intros [Hp|Hk].
  - apply producer_step_conn in Hp as [-> ->].
    destruct (started (producer m)); auto.
  - apply consumer_step_conn in Hk as [-> ->].
    destruct (started (producer m)); auto.
Qed.

(** Along any interleaving the connection carries at most one new command,
    the fetch. *)
Lemma reachable_conn mbox ig lo m m' :
  rtc (step mbox ig lo) m m' →
  (started (producer m) = true → started (producer m') = true)
  ∧ conn m' = (if negb (started (producer m)) && started (producer m')
               then client.issue (conn m) fetch_request else conn m).
Proof.
  induction 1 as [m|m1 m2 m3 H12 _ [IHs IHc]].
  - split; [auto|]. destruct (started (producer m)); reflexivity.
  - apply step_conn in H12 as [Hs Hc]. split; [auto|].
    rewrite IHc, Hc.
    destruct (started (producer m1)); simpl.
    + rewrite (Hs eq_refl). reflexivity.
    + destruct (started (producer m2)) eqn:H2; simpl;
        [rewrite (IHs eq_refl)|]; reflexivity.
Qed.

(** ** FindDups as a whole *)

Lemma FindDups_run_unfold sched c out mbox ig lo :
  FindDups_run sched c out mbox ig lo
  = let c1 := client.issue c (select_request mbox) in
    match client.select_reply (client.server c) (client.sent c1) with
    | inr e => (c1, inl e)
    | inl st =>
        let out1 := out +:+ "MBOX UID " +:+ pretty (imap.UidValidity st) +:+ LF in
        let m := exec mbox ig lo sched (spawn c1 out1) in
        (conn m, inr m)
    end.
Proof.
  unfold FindDups_run, client.Select, select_request. simpl.
  destruct (client.select_reply _ _); reflexivity.
Qed.

(** A run after a successful selection, on a stream of enveloped messages. *)
Lemma FindDups_run_inv sched c out mbox ig lo st msgs res :
  let log := client.sent c ++ [select_request mbox] in
  let fr0 :=
    mkFrame ∅ [] (out +:+ "MBOX UID " +:+ pretty (imap.UidValidity st) +:+ LF) in
  client.select_reply (client.server c) log = inl st →
  client.fetch_reply (client.server c) (log ++ [fetch_request]) = (msgs, res) →
  Forall (λ msg, is_Some (imap.Envelope_ msg)) msgs →
  ∃ m,
    (FindDups_run sched c out mbox ig lo).2 = inr m
    ∧ (FindDups sched c out mbox ig lo).2 = outcome m
    ∧ Inv mbox ig lo (client.issue c (select_request mbox)) fr0 msgs res m
    ∧ ((2 * length msgs + 6 ≤ length sched)%nat → ∃ fr, consumer m = Returned fr).
Proof.
  intros log fr0 Hsel Hfetch Hall.
  unfold FindDups. rewrite FindDups_run_unfold. simpl. fold log. rewrite Hsel.
  eexists. split; [reflexivity|]. split; [reflexivity|].
  set (c1 := client.issue c (select_request mbox)).
  assert (Inv mbox ig lo c1 fr0 msgs res (spawn c1 (stdout fr0))) as Hinv
    by (apply spawn_inv; reflexivity).
  split.
  - apply (exec_inv mbox ig lo c1 fr0 msgs res Hfetch Hall). exact Hinv.
  - intros Hlen.
    apply (exec_returns mbox ig lo c1 fr0 msgs res Hfetch Hall); [exact Hinv|].
    rewrite spawn_todo. exact Hlen.
Qed.

(** C1: after a successful selection, on a stream [msgs] of enveloped
    messages and under every schedule long enough for the call to return,
    FindDups returns the identifiers, in arrival order, of the records whose
    fingerprint had arrived before; the Seen Set then holds the fingerprints
    of the stream, one entry each, [length msgs] minus the number of
    duplicates in all; and at each arrival the Seen Set holds the
    fingerprints of the earlier records, a fingerprint found in it leaving
    the set as it is and one not found being inserted. *)
Theorem FindDups_classification sched c out mbox ig lo st msgs res :
  let log := client.sent c ++ [select_request mbox] in
  let fr0 :=
    mkFrame ∅ [] (out +:+ "MBOX UID " +:+ pretty (imap.UidValidity st) +:+ LF) in
  client.select_reply (client.server c) log = inl st →
  client.fetch_reply (client.server c) (log ++ [fetch_request]) = (msgs, res) →
  Forall (λ msg, is_Some (imap.Envelope_ msg)) msgs →
  (2 * length msgs + 6 ≤ length sched)%nat →
  ∃ m fr,
    (FindDups_run sched c out mbox ig lo).2 = inr m
    ∧ consumer m = Returned fr
    ∧ (FindDups sched c out mbox ig lo).2 = Return (dups fr) res
    ∧ dups fr = duplicate_list [] (records ig msgs)
    ∧ uniqueIDs fr = list_to_set (records ig msgs).*1
    ∧ size (uniqueIDs fr) = (length msgs - length (dups fr))%nat
    ∧ ∀ pre msg post env,
        msgs = pre ++ msg :: post →
        imap.Envelope_ msg = Some env →
        let fp := fingerprint ig env in
        ∃ fr1 fr2,
          range_loop mbox ig lo pre fr0 = Some fr1
          ∧ loop_body mbox ig lo fr1 msg = Some fr2
          ∧ uniqueIDs fr1 = list_to_set (records ig pre).*1
          ∧ if decide (fp ∈ (records ig pre).*1)
            then uniqueIDs fr2 = uniqueIDs fr1
                 ∧ dups fr2 = dups fr1 ++ [imap.Uid msg]
            else ((fp ∉ uniqueIDs fr1)
                  ∧ uniqueIDs fr2 = {[fp]} ∪ uniqueIDs fr1
                  ∧ dups fr2 = dups fr1).
Proof.
  intros log fr0 Hsel Hfetch Hall Hlen.
  destruct (FindDups_run_inv sched c out mbox ig lo st msgs res Hsel Hfetch Hall)
    as (m & Hrun & Hout & Hinv & Hret).
  destruct (Hret Hlen) as [fr Hfr].
  destruct (returned_outcome mbox ig lo _ fr0 msgs res m fr Hinv Hfr)
    as [Hloop Hres].
  destruct (range_loop_spec mbox ig lo msgs fr0 [] Hall eq_refl)
    as (fr' & Hloop' & Hd & Hu & Hn).
  rewrite Hloop in Hloop'. injection Hloop' as <-.
  unfold fr0 in Hd, Hn. cbn [uniqueIDs dups app length] in Hd, Hu, Hn.
  exists m, fr. split_and!; auto.
  - rewrite Hout. exact Hres.
  - rewrite size_empty in Hn. lia.
  - intros pre msg post env Hsplit Henv.
    apply range_loop_arrival; [|exact Henv|reflexivity].
    rewrite Hsplit in Hall. apply Forall_app in Hall as [Hpre _]. exact Hpre.
Qed.

Lemma FindDups_classification_witness :
  (FindDups (repeat true 14) (session flaky) "" "INBOX" false false).2
  = Return [30; 40]%N (Some "connection closed").
Proof.
  destruct (FindDups_classification (repeat true 14) (session flaky) ""
              "INBOX" false false status inbox (Some "connection closed")
              eq_refl eq_refl)
    as (m & fr & _ & _ & Hout & Hd & _).
  - repeat constructor; eexists; reflexivity.
  - simpl. lia.
  - rewrite Hout, Hd. reflexivity.
Defined.

(** C3: when the fetch delivers [msgs] and then fails with [e], the call,
    under any schedule, has either not returned yet or returned the
    Duplicate List of all of [msgs] together with [e]; under every schedule
    long enough it has returned.  No shorter list and no nil error is ever
    returned. *)
Theorem FindDups_drains sched c out mbox ig lo st msgs e :
  let log := client.sent c ++ [select_request mbox] in
  let fr0 :=
    mkFrame ∅ [] (out +:+ "MBOX UID " +:+ pretty (imap.UidValidity st) +:+ LF) in
  client.select_reply (client.server c) log = inl st →
  client.fetch_reply (client.server c) (log ++ [fetch_request]) = (msgs, Some e) →
  Forall (λ msg, is_Some (imap.Envelope_ msg)) msgs →
  ∃ fr,
    range_loop mbox ig lo msgs fr0 = Some fr
    ∧ dups fr = duplicate_list [] (records ig msgs)
    ∧ ((FindDups sched c out mbox ig lo).2 = Pending
       ∨ (FindDups sched c out mbox ig lo).2 = Return (dups fr) (Some e))
    ∧ ((2 * length msgs + 6 ≤ length sched)%nat →
       (FindDups sched c out mbox ig lo).2 = Return (dups fr) (Some e)).
Proof.
  intros log fr0 Hsel Hfetch Hall.
  destruct (FindDups_run_inv sched c out mbox ig lo st msgs (Some e)
              Hsel Hfetch Hall) as (m & Hrun & Hout & Hinv & Hret).
  destruct (range_loop_spec mbox ig lo msgs fr0 [] Hall eq_refl)
    as (fr & Hloop & Hd & _).
  exists fr. split; [exact Hloop|]. split; [exact Hd|].
  assert (∀ fr', consumer m = Returned fr' → outcome m = Return (dups fr) (Some e))
    as Hdone.
  { intros fr' Hfr'.
    destruct (returned_outcome mbox ig lo _ fr0 msgs (Some e) m fr' Hinv Hfr')
      as [Hloop' ->].
    rewrite Hloop in Hloop'. injection Hloop' as <-. reflexivity. }
  rewrite Hout. split.
  - destruct (consumer m) as [k|k|k|] eqn:Hk.
    + left. unfold outcome. rewrite Hk. reflexivity.
    + left. unfold outcome. rewrite Hk. reflexivity.
    + right. apply (Hdone k). reflexivity.
    + destruct Hinv as (_ & _ & _ & _ & _ & _ & Hfalse).
      rewrite Hk in Hfalse. contradiction.
  - intros Hlen. destruct (Hret Hlen) as [fr' Hfr']. exact (Hdone fr' Hfr').
Qed.

Lemma FindDups_drains_witness :
  (FindDups [true; false; false; true; true; false; true; false; false; false;
             true; true; false; false; false; false]
     (session flaky) "" "INBOX" true true).2
  = Return [20; 30; 40]%N (Some "connection closed").
Proof.
  destruct (FindDups_drains
              [true; false; false; true; true; false; true; false; false; false;
               true; true; false; false; false; false]
              (session flaky) "" "INBOX" true true status inbox
              "connection closed" eq_refl eq_refl)
    as (fr & _ & Hd & _ & Hret).
  - repeat constructor; eexists; reflexivity.
  - rewrite Hret, Hd; [reflexivity|simpl; lia].
Defined.

(** C7, as stated: the selection is not sent in read-only mode. *)
Lemma FindDups_select_counterexample :
  ¬ (∀ sched c out mbox ig lo,
       ∃ rest,
         client.sent (FindDups sched c out mbox ig lo).1
         = client.sent c ++ client.CmdSelect mbox true :: rest).
Proof.
  intros H.
  destruct (H [] (session flaky) "" "INBOX" false false) as [rest Hsent].
  vm_compute in Hsent. discriminate Hsent.
Qed.

(** C7, amended: whatever the server, the stream and the schedule, the
    commands FindDups has sent are the selection, with the read-only flag
    false, followed at most by the one fetch of identifiers and envelopes:
    no flag-mutation request and no purge. *)
Theorem FindDups_requests sched c out mbox ig lo :
  let c' := (FindDups sched c out mbox ig lo).1 in
  ∃ issued,
    client.sent c' = client.sent c ++ issued
    ∧ client.server c' = client.server c
    ∧ (issued = [client.CmdSelect mbox false]
       ∨ issued = [client.CmdSelect mbox false; fetch_request])
    ∧ (client.CmdExpunge ∉ issued)
    ∧ ∀ seqset item value, client.CmdUidStore seqset item value ∉ issued.
Proof.
  intros c'.
  assert (client.server c' = client.server c
          ∧ (client.sent c' = client.sent c ++ [client.CmdSelect mbox false]
             ∨ client.sent c'
               = client.sent c ++ [client.CmdSelect mbox false; fetch_request]))
    as [Hsrv Hsent].
  { subst c'. unfold FindDups. rewrite FindDups_run_unfold. simpl.
    destruct (client.select_reply _ _) as [st|e]; simpl; [|auto].
    match goal with |- context [exec _ _ _ _ ?m0] => set (m0' := m0) end.
    destruct (reachable_conn mbox ig lo m0' _ (exec_reachable mbox ig lo sched m0'))
      as [_ ->]. simpl.
    destruct (started _); simpl; [|auto].
    rewrite <- app_assoc. auto. }
  destruct Hsent as [Hsent|Hsent]; eexists; (split; [exact Hsent|]);
    (split; [exact Hsrv|]); (split; [auto|]); split;
    try intros seqset item value;
    rewrite ?not_elem_of_cons; split_and?;
    try discriminate; apply not_elem_of_nil.
Qed.

(** ** A whole run: scan, then removal *)

Example scan_then_remove :
  let '(c1, found) :=
    FindDups (repeat false 14) (session steady) "" "INBOX" false true in
  found = Return [30; 40]%N None
  ∧ RemoveDups c1 "INBOX" [30; 40]%N
    = (client.mkClient steady
         [select_request "INBOX"; fetch_request;
          select_request "INBOX"; mark_request 30%N; mark_request 40%N;
          client.CmdExpunge],
       None).
Proof. vm_compute. auto. Qed.

(** The same mailbox by content hash: the two pairs differ only in their
    protocol identifiers, so three of the four messages are duplicates. *)
Example scan_by_content :
  (FindDups (repeat true 14) (session steady) "" "INBOX" true true).2
  = Return [20; 30; 40]%N None.
Proof. vm_compute. reflexivity. Qed.

(** * Further properties *)

(** ** The fingerprint: what it tells apart *)

Lemma unsextet_sextet_nat (k : nat) :
  (k < 64)%nat → unsextet (base64.sextet (Z.of_nat k)) = Z.of_nat k.
Proof.
  intros Hk. do 64 (destruct k as [|k]; [vm_compute; reflexivity|]). lia.
Qed.

Lemma unsextet_sextet (i : Z) : unsextet (base64.sextet i) = i mod 64.
Proof.
  assert (0 <= i mod 64 < 64) as Hr by (apply Z.mod_pos_bound; lia).
  assert (base64.sextet i = base64.sextet (Z.of_nat (Z.to_nat (i mod 64)))) as ->.
  { unfold base64.sextet. rewrite Z2Nat.id by lia. rewrite Z.mod_mod by lia. reflexivity. }
  rewrite unsextet_sextet_nat by lia. lia.
Qed.

Lemma sextet_not_pad (i : Z) : base64.sextet i ≠ "="%char.
Proof.
  intros Heq. apply (f_equal unsextet) in Heq. rewrite unsextet_sextet in Heq.
  assert (0 <= i mod 64 < 64) as Hr by (apply Z.mod_pos_bound; lia).
  vm_compute (unsextet "=") in Heq. lia.
Qed.

Lemma sextet_inj (i j : Z) : base64.sextet i = base64.sextet j → i mod 64 = j mod 64.
Proof. intros Heq. rewrite <- !unsextet_sextet, Heq. reflexivity. Qed.

Lemma Z_of_byte_range (b : byte) : 0 <= sha1.Z_of_byte b < 256.
Proof. unfold sha1.Z_of_byte. pose proof (Byte.to_N_bounded b). lia. Qed.

Lemma Z_of_byte_inj (a b : byte) : sha1.Z_of_byte a = sha1.Z_of_byte b → a = b.
Proof.
  unfold sha1.Z_of_byte. intros H. apply N2Z.inj in H.
  pose proof (Byte.of_to_N a) as Ha. rewrite H, Byte.of_to_N in Ha. congruence.
Qed.

Lemma triple_inj (a b c a' b' c' : Z) :
  0 <= a < 256 → 0 <= b < 256 → 0 <= c < 256 →
  0 <= a' < 256 → 0 <= b' < 256 → 0 <= c' < 256 →
  let v := a * 65536 + b * 256 + c in
  let v' := a' * 65536 + b' * 256 + c' in
  (Z.shiftr v 18) mod 64 = (Z.shiftr v' 18) mod 64 →
  (Z.shiftr v 12) mod 64 = (Z.shiftr v' 12) mod 64 →
  (Z.shiftr v 6) mod 64 = (Z.shiftr v' 6) mod 64 →
  v mod 64 = v' mod 64 →
  a = a' ∧ b = b' ∧ c = c'.
Proof.
  intros Ha Hb Hc Ha' Hb' Hc' v v'. rewrite !Z.shiftr_div_pow2 by lia.
  change (2 ^ 18) with 262144. change (2 ^ 12) with 4096. change (2 ^ 6) with 64.
  intros H1 H2 H3 H4.
  assert (v = v') as Hv by (Z.div_mod_to_equations; lia).
  subst v v'. lia.
Qed.

Lemma pair_inj (a b a' b' : Z) :
  0 <= a < 256 → 0 <= b < 256 → 0 <= a' < 256 → 0 <= b' < 256 →
  let v := a * 65536 + b * 256 in
  let v' := a' * 65536 + b' * 256 in
  (Z.shiftr v 18) mod 64 = (Z.shiftr v' 18) mod 64 →
  (Z.shiftr v 12) mod 64 = (Z.shiftr v' 12) mod 64 →
  (Z.shiftr v 6) mod 64 = (Z.shiftr v' 6) mod 64 →
  a = a' ∧ b = b'.
Proof.
  intros Ha Hb Ha' Hb' v v'. rewrite !Z.shiftr_div_pow2 by lia.
  change (2 ^ 18) with 262144. change (2 ^ 12) with 4096. change (2 ^ 6) with 64.
  intros H1 H2 H3.
  assert (v = v') as Hv by (Z.div_mod_to_equations; lia).
  subst v v'. lia.
Qed.

Lemma single_inj (a a' : Z) :
  0 <= a < 256 → 0 <= a' < 256 →
  (Z.shiftr (a * 65536) 18) mod 64 = (Z.shiftr (a' * 65536) 18) mod 64 →
  (Z.shiftr (a * 65536) 12) mod 64 = (Z.shiftr (a' * 65536) 12) mod 64 →
  a = a'.
Proof.
  intros Ha Ha'. rewrite !Z.shiftr_div_pow2 by lia.
  change (2 ^ 18) with 262144. change (2 ^ 12) with 4096.
  intros H1 H2. Z.div_mod_to_equations. lia.
Qed.

Lemma string_cons_inj (c1 c2 : ascii) (s1 s2 : string) :
  String c1 s1 = String c2 s2 → c1 = c2 ∧ s1 = s2.
Proof. intros [= -> ->]. auto. Qed.

Lemma encode_inj : ∀ l1 l2 : list byte,
  base64.encode l1 = base64.encode l2 → l1 = l2.
Proof.
  intros l1. pattern l1. apply list_ind3; clear l1;
    [|intros a|intros a b|intros a b c l1 IH];
    intros [|a' [|b' [|c' l2]]]; cbn [base64.encode]; cbv zeta; intros Heq;
    try discriminate Heq; try reflexivity.
  all: apply string_cons_inj in Heq as [H1 Heq];
    apply string_cons_inj in Heq as [H2 Heq];
    apply string_cons_inj in Heq as [H3 Heq];
    apply string_cons_inj in Heq as [H4 H5].
  all: try (exfalso; first [exact (sextet_not_pad _ H3) | exact (sextet_not_pad _ (eq_sym H3))
                           | exact (sextet_not_pad _ H4) | exact (sextet_not_pad _ (eq_sym H4))]).
  all: try (destruct l2 as [|? [|? [|? ?]]]; discriminate H5).
  all: try (destruct l1 as [|? [|? [|? ?]]]; discriminate H5).
  - apply sextet_inj in H1, H2.
    f_equal. apply Z_of_byte_inj.
    apply single_inj; auto using Z_of_byte_range.
  - apply sextet_inj in H1, H2, H3.
    destruct (pair_inj (sha1.Z_of_byte a) (sha1.Z_of_byte b)
                (sha1.Z_of_byte a') (sha1.Z_of_byte b')) as [Ea Eb];
      auto using Z_of_byte_range.
    apply Z_of_byte_inj in Ea, Eb. congruence.
  - apply sextet_inj in H1, H2, H3, H4.
    destruct (triple_inj (sha1.Z_of_byte a) (sha1.Z_of_byte b) (sha1.Z_of_byte c)
                (sha1.Z_of_byte a') (sha1.Z_of_byte b') (sha1.Z_of_byte c'))
      as (Ea & Eb & Ec); auto using Z_of_byte_range.
    apply Z_of_byte_inj in Ea, Eb, Ec. rewrite (IH l2 H5). congruence.
Qed.

Lemma list_byte_of_string_inj (s1 s2 : string) :
  list_byte_of_string s1 = list_byte_of_string s2 → s1 = s2.
Proof.
  intros H. rewrite <- (string_of_list_byte_of_string s1),
    <- (string_of_list_byte_of_string s2), H. reflexivity.
Qed.

(** X2: in content-hash mode two envelopes have the same fingerprint exactly
    when the texts built from them are the same: the text is encoded, not
    digested, so different texts never collide. *)
Theorem fingerprint_content_injective (E1 E2 : imap.Envelope) :
  fingerprint true E1 = fingerprint true E2 ↔ content E1 = content E2.
Proof.
  rewrite !fingerprint_hashed. split.
  - intros H. apply encode_inj, app_inv_tail in H.
    apply list_byte_of_string_inj. exact H.
  - intros ->. reflexivity.
Qed.

(** X1: whatever the mode and the envelope, with every field empty too, the
    fingerprint is not the empty string. *)
Theorem fingerprint_not_empty (ig : bool) (env : imap.Envelope) :
  fingerprint ig env ≠ "".
Proof.
  rewrite fingerprint_unfold. destruct (decide _) as [Heq|Hne].
  - intros H. apply (f_equal String.length) in H.
    rewrite encode_length, length_app, digest_length,
      length_list_byte_of_string in H.
    change (String.length "") with 0%nat in H.
    assert (1 ≤ (String.length (content env) + 20 + 2) / 3)%nat as Hq
      by (apply Nat.div_le_lower_bound; lia).
    revert H Hq. generalize ((String.length (content env) + 20 + 2) / 3)%nat.
    intros q H Hq. lia.
  - destruct ig; [contradiction|exact Hne].
Qed.

Lemma write_addresses_map tag (l1 l2 : list imap.Address) :
  map imap.Address_Address l1 = map imap.Address_Address l2 →
  ∀ builder, write_addresses tag l1 builder = write_addresses tag l2 builder.
Proof.
  unfold write_addresses. revert l2.
  induction l1 as [|f1 l1 IH]; intros [|f2 l2] Hmap builder; try discriminate.
  - reflexivity.
  - simpl in *. injection Hmap as Hf Hl. rewrite Hf. apply IH. exact Hl.
Qed.

Lemma content_reads_addresses (E1 E2 : imap.Envelope) :
  time.String (imap.Date E1) = time.String (imap.Date E2) →
  imap.Subject E1 = imap.Subject E2 →
  map imap.Address_Address (imap.From E1) = map imap.Address_Address (imap.From E2) →
  map imap.Address_Address (imap.Sender E1) = map imap.Address_Address (imap.Sender E2) →
  map imap.Address_Address (imap.ReplyTo E1) = map imap.Address_Address (imap.ReplyTo E2) →
  map imap.Address_Address (imap.To E1) = map imap.Address_Address (imap.To E2) →
  map imap.Address_Address (imap.Cc E1) = map imap.Address_Address (imap.Cc E2) →
  map imap.Address_Address (imap.Bcc E1) = map imap.Address_Address (imap.Bcc E2) →
  imap.InReplyTo E1 = imap.InReplyTo E2 →
  content E1 = content E2.
Proof.
  intros Hd Hs Hf Hse Hr Ht Hc Hb Hi. unfold content.
  rewrite Hd, Hs, Hi.
  rewrite (write_addresses_map _ _ _ Hf), (write_addresses_map _ _ _ Hse),
    (write_addresses_map _ _ _ Hr), (write_addresses_map _ _ _ Ht),
    (write_addresses_map _ _ _ Hc), (write_addresses_map _ _ _ Hb).
  reflexivity.
Qed.

(** X3: in content-hash mode the fingerprint reads an address only through
    [Address()], mailbox@host: envelopes that agree on the timestamp string,
    the subject, the in-reply-to field and the mailbox@host renderings of the
    six address lists have the same fingerprint, whatever their display
    names, source routes and protocol identifiers. *)
Theorem fingerprint_reads_addresses_only (E1 E2 : imap.Envelope) :
  time.String (imap.Date E1) = time.String (imap.Date E2) →
  imap.Subject E1 = imap.Subject E2 →
  map imap.Address_Address (imap.From E1) = map imap.Address_Address (imap.From E2) →
  map imap.Address_Address (imap.Sender E1) = map imap.Address_Address (imap.Sender E2) →
  map imap.Address_Address (imap.ReplyTo E1) = map imap.Address_Address (imap.ReplyTo E2) →
  map imap.Address_Address (imap.To E1) = map imap.Address_Address (imap.To E2) →
  map imap.Address_Address (imap.Cc E1) = map imap.Address_Address (imap.Cc E2) →
  map imap.Address_Address (imap.Bcc E1) = map imap.Address_Address (imap.Bcc E2) →
  imap.InReplyTo E1 = imap.InReplyTo E2 →
  fingerprint true E1 = fingerprint true E2.
Proof.
  intros Hd Hs Hf Hse Hr Ht Hc Hb Hi. rewrite !fingerprint_hashed.
  rewrite (content_reads_addresses E1 E2) by assumption. reflexivity.
Qed.

Lemma fingerprint_reads_addresses_only_witness :
  imap.From env_a ≠ imap.From env_d
  ∧ fingerprint true env_a = fingerprint true env_d.
Proof.
  split; [discriminate|].
  apply (fingerprint_reads_addresses_only env_a env_d); reflexivity.
Defined.

(** ** FindDups on any stream *)

Section AnyRun.

Variables (mbox : string) (ignoreMessageID listOnlyDups : bool).
Variables (c : client.Client) (fr0 : Frame).
Variables (msgs : list imap.Message) (res : option error).

Hypothesis fetch_reply_eq :
  client.fetch_reply (client.server c) (client.sent c ++ [fetch_request])
  = (msgs, res).

Local Abbreviation body := (loop_body mbox ignoreMessageID listOnlyDups).
Local Abbreviation loop := (range_loop mbox ignoreMessageID listOnlyDups).
Local Abbreviation J := (Inv_any mbox ignoreMessageID listOnlyDups c fr0 msgs res).
Local Abbreviation kstep := (consumer_step mbox ignoreMessageID listOnlyDups).

Lemma spawn_inv_any out : fr0 = mkFrame ∅ [] out → J (spawn c out).
Proof.
  intros ->. unfold Inv_any. simpl. repeat split; try discriminate.
  exists []. simpl. auto.
Qed.

Lemma producer_step_inv_any m m' :
  J m → producer_step m = Some m' → J m' ∧ (todo msgs m' < todo msgs m)%nat.
Proof.
  destruct m as [cn e [mb mcap mcl] [eb ecap ecl] p k].
  unfold Inv_any, producer_step, todo. simpl.
  intros (Hconn & Hres & Hmcap & Hecap & Hmcl & Hecl & Hk) Hstep.
  subst cn mcap ecap mcl ecl.
  destruct k as [fr|fr|fr|]; [| | |discriminate Hstep]; simpl in Hstep;
    (destruct p as [|[|msg rest] r| | |]); simpl in *;
    try discriminate Hstep;
    try (pose proof (Hres _ _ eq_refl); subst r);
    try (rewrite fetch_request_eq in Hstep;
         unfold client.UidFetch_issue, client.issue in Hstep;
         simpl in Hstep; rewrite fetch_reply_eq in Hstep);
    destruct_and?; try discriminate; subst;
    try (destruct res as [e0|]; simpl in Hstep);
    try (destruct (length mb <? 1000)%nat eqn:Hroom; [|discriminate Hstep]);
    injection Hstep as <-; simpl;
    (split; [|rewrite ?length_app; simpl; lia]);
    split_and?; try reflexivity; try discriminate; try congruence.
  all: destruct H as (done & Hsplit & Hloop); exists done;
    (split; [rewrite Hsplit, <- app_assoc; reflexivity|exact Hloop]).
Qed.

Lemma consumer_step_inv_any m m' :
  J m → kstep m = Some m' → J m' ∧ (todo msgs m' < todo msgs m)%nat.
Proof.
  destruct m as [cn e [mb mcap mcl] [eb ecap ecl] p k].
  unfold Inv_any, consumer_step, todo. simpl.
  intros (Hconn & Hres & Hmcap & Hecap & Hmcl & Hecl & Hk) Hstep.
  subst cn mcap ecap mcl ecl.
  destruct k as [fr|fr|fr|]; [| | |discriminate Hstep]; simpl in Hstep.
  - destruct Hk as ((done & Hsplit & Hloop) & He & Heb).
    destruct mb as [|msg mb].
    + destruct (fetching p) eqn:Hp; simpl in Hstep; [discriminate|].
      injection Hstep as <-. simpl. rewrite Hp.
      assert (pending msgs p = []) as Hnil by (destruct p; try discriminate; reflexivity).
      rewrite Hnil in *. simpl in *. rewrite app_nil_r in Hsplit. subst done.
      split; [|lia]. split_and?; auto.
    + assert (loop (done ++ [msg]) fr0 = body fr msg) as Hsnoc.
      { rewrite range_loop_app, Hloop. simpl. destruct (body fr msg); reflexivity. }
      assert (msgs = (done ++ [msg]) ++ mb ++ pending msgs p) as Hsplit'.
      { etrans; [exact Hsplit|]. rewrite <- app_assoc. reflexivity. }
      injection Hstep as <-. simpl.
      destruct (body fr msg) as [fr'|] eqn:Hbody; (split; [|simpl; lia]);
        split_and?; auto.
      * exists (done ++ [msg]). auto.
      * rewrite Hsplit', range_loop_app, Hsnoc. reflexivity.
      * destruct p; try reflexivity. simpl in Hsplit.
        apply (f_equal length) in Hsplit.
        rewrite !length_app in Hsplit. simpl in Hsplit.
        rewrite ?length_app in Hsplit. exfalso. lia.
      * exists done, msg. split; [exact Hsplit|]. split; [rewrite Hloop; eauto|].
        destruct (imap.Envelope_ msg) as [env|] eqn:Henv; [|reflexivity].
        destruct (loop_body_branches mbox ignoreMessageID listOnlyDups fr msg env Henv)
          as [out Hout].
        rewrite Hout in Hbody. discriminate Hbody.
  - destruct Hk as (Hmb & Hp & Hloop & He & Heb). subst mb e.
    destruct eb as [|e eb].
    + destruct p; try discriminate; simpl in *; try discriminate;
        (destruct res; [discriminate|]);
        injection Hstep as <-; simpl; (split; [|lia]); split_and?; auto.
    + injection Hstep as <-. simpl.
      destruct p; try discriminate; simpl in *; try discriminate;
        (destruct res as [e0|]; [|discriminate]);
        injection Heb as -> ->; (split; [|lia]); split_and?; auto.
  - discriminate.
Qed.

Lemma progress_any m :
  J m → producer_step m = None → kstep m = None →
  (∃ fr, consumer m = Returned fr) ∨ consumer m = Panicked.
Proof.
  destruct m as [cn e [mb mcap mcl] [eb ecap ecl] p k].
  unfold Inv_any, producer_step, consumer_step. simpl.
  intros (Hconn & Hres & Hmcap & Hecap & Hmcl & Hecl & Hk) Hp Hc.
  subst cn mcap ecap mcl ecl.
  destruct k as [fr|fr|fr|]; [| |eauto|auto]; simpl in Hp, Hc.
  - destruct Hk as (_ & He & Heb).
    destruct mb as [|msg mb]; [|destruct (body fr msg); discriminate].
    destruct p as [|[|msg rest] r| | |]; simpl in *; try discriminate.
    destruct (client.fetch_reply _ _). discriminate.
  - destruct Hk as (Hmb & Hfetch & _ & He & Heb).
    destruct p as [|[|msg rest] r| | |]; simpl in *; try discriminate.
    + subst. destruct res; discriminate.
    + subst. destruct res; discriminate.
Qed.

Lemma exec_inv_any sched : ∀ m, J m → J (exec mbox ignoreMessageID listOnlyDups sched m).
Proof.
  induction sched as [|turn sched IH]; intros m Hm; simpl; [exact Hm|].
  destruct (producer_step m) as [mp|] eqn:Hp;
    destruct (kstep m) as [mk|] eqn:Hk; destruct turn; auto;
    apply IH;
    first [exact (proj1 (producer_step_inv_any m _ Hm Hp))
          |exact (proj1 (consumer_step_inv_any m _ Hm Hk))].
Qed.

Lemma exec_ends sched : ∀ m,
  J m → (todo msgs m ≤ length sched)%nat →
  let m' := exec mbox ignoreMessageID listOnlyDups sched m in
  (∃ fr, consumer m' = Returned fr) ∨ consumer m' = Panicked.
Proof.
  induction sched as [|turn sched IH]; intros m Hm Hlen; simpl.
  - destruct m as [cn e mc ec p k]. unfold todo in Hlen. simpl in *.
    destruct k as [fr|fr|fr|]; [lia|lia|eauto|auto].
  - simpl in Hlen.
    destruct (producer_step m) as [mp|] eqn:Hp;
      destruct (kstep m) as [mk|] eqn:Hk; destruct turn;
      try (destruct (producer_step_inv_any m _ Hm Hp) as [Hm' Htodo];
           apply IH; [exact Hm'|lia]);
      try (destruct (consumer_step_inv_any m _ Hm Hk) as [Hm' Htodo];
           apply IH; [exact Hm'|lia]);
      exact (progress_any m Hm Hp Hk).
Qed.

End AnyRun.

Lemma range_loop_enveloped mbox ig lo msgs : ∀ fr,
  is_Some (range_loop mbox ig lo msgs fr)
  ↔ Forall (λ msg, is_Some (imap.Envelope_ msg)) msgs.
Proof.
  induction msgs as [|msg msgs IH]; intros fr; simpl.
  - split; [constructor|eauto].
  - rewrite Forall_cons. destruct (imap.Envelope_ msg) as [env|] eqn:Henv.
    + destruct (loop_body_branches mbox ig lo fr msg env Henv) as [out ->].
      rewrite IH. split; [intros H; split; eauto|intros [_ H]; exact H].
    + unfold loop_body. rewrite Henv.
      split; [intros [? ?]; discriminate|intros [[? ?] _]; discriminate].
Qed.

Lemma FindDups_run_inv_any sched c out mbox ig lo st msgs res :
  let log := client.sent c ++ [select_request mbox] in
  let fr0 :=
    mkFrame ∅ [] (out +:+ "MBOX UID " +:+ pretty (imap.UidValidity st) +:+ LF) in
  client.select_reply (client.server c) log = inl st →
  client.fetch_reply (client.server c) (log ++ [fetch_request]) = (msgs, res) →
  ∃ m,
    FindDups_run sched c out mbox ig lo = (conn m, inr m)
    ∧ FindDups sched c out mbox ig lo = (conn m, outcome m)
    ∧ Inv_any mbox ig lo (client.issue c (select_request mbox)) fr0 msgs res m
    ∧ ((2 * length msgs + 6 ≤ length sched)%nat →
       (∃ fr, consumer m = Returned fr) ∨ consumer m = Panicked).
Proof.
  intros log fr0 Hsel Hfetch.
  unfold FindDups. rewrite FindDups_run_unfold. simpl. fold log. rewrite Hsel.
  eexists. split; [reflexivity|]. split; [reflexivity|].
  set (c1 := client.issue c (select_request mbox)).
  assert (Inv_any mbox ig lo c1 fr0 msgs res (spawn c1 (stdout fr0))) as Hinv
    by (apply spawn_inv_any; reflexivity).
  split.
  - apply (exec_inv_any mbox ig lo c1 fr0 msgs res Hfetch). exact Hinv.
  - intros Hlen.
    apply (exec_ends mbox ig lo c1 fr0 msgs res Hfetch); [exact Hinv|].
    rewrite spawn_todo. exact Hlen.
Qed.

(** What a machine that has stopped tells: the result of the loop over the
    whole stream. *)
Lemma inv_any_outcome mbox ig lo c fr0 msgs res m :
  Inv_any mbox ig lo c fr0 msgs res m →
  uniqueIDs fr0 = ∅ → dups fr0 = [] →
  match outcome m with
  | Return uids r =>
      Forall (λ msg, is_Some (imap.Envelope_ msg)) msgs
      ∧ r = res
      ∧ uids = duplicate_list [] (records ig msgs)
      ∧ conn m = client.issue c fetch_request
  | Panic =>
      ¬ Forall (λ msg, is_Some (imap.Envelope_ msg)) msgs
      ∧ conn m = client.issue c fetch_request
  | Pending => True
  end.
Proof.
  intros (Hconn & _ & _ & _ & _ & _ & Hk) Hu Hd. unfold outcome.
  destruct (consumer m) as [fr|fr|fr|] eqn:Hcons; [exact I|exact I| |].
  - destruct Hk as (_ & Hann & Hloop & He & _).
    assert (Forall (λ msg, is_Some (imap.Envelope_ msg)) msgs) as Hall
      by (apply (range_loop_enveloped mbox ig lo msgs fr0); eauto).
    destruct (range_loop_spec mbox ig lo msgs fr0 [] Hall Hu)
      as (fr' & Hloop' & Hdups & _).
    rewrite Hloop in Hloop'. injection Hloop' as <-.
    rewrite Hd in Hdups. split_and!; auto.
    rewrite Hconn. destruct (producer m); try discriminate; reflexivity.
  - destruct Hk as (Hloop & Hst & _). split.
    + intros Hall. apply (range_loop_enveloped mbox ig lo msgs fr0) in Hall.
      rewrite Hloop in Hall. destruct Hall; discriminate.
    + rewrite Hconn, Hst. reflexivity.
Qed.

(** After a successful selection, whatever the schedule: what the caller
    has got tells what the whole stream was. *)
Lemma FindDups_outcome_any sched c out mbox ig lo st msgs res :
  let log := client.sent c ++ [select_request mbox] in
  client.select_reply (client.server c) log = inl st →
  client.fetch_reply (client.server c) (log ++ [fetch_request]) = (msgs, res) →
  match (FindDups sched c out mbox ig lo).2 with
  | Return uids r =>
      Forall (λ msg, is_Some (imap.Envelope_ msg)) msgs
      ∧ r = res
      ∧ uids = duplicate_list [] (records ig msgs)
      ∧ (FindDups sched c out mbox ig lo).1
        = client.mkClient (client.server c) (log ++ [fetch_request])
  | Panic =>
      ¬ Forall (λ msg, is_Some (imap.Envelope_ msg)) msgs
      ∧ (FindDups sched c out mbox ig lo).1
        = client.mkClient (client.server c) (log ++ [fetch_request])
  | Pending => True
  end.
Proof.
  intros log Hsel Hfetch.
  destruct (FindDups_run_inv_any sched c out mbox ig lo st msgs res Hsel Hfetch)
    as (m & _ & -> & Hinv & _).
  pose proof (inv_any_outcome _ _ _ _ _ _ _ _ Hinv eq_refl eq_refl) as Hout.
  simpl. destruct (outcome m); [|exact Hout|exact I].
  destruct Hout as (? & ? & ? & ?). auto.
Qed.

(** Under a schedule long enough the call is over: it has returned or
    panicked. *)
Lemma FindDups_over sched c out mbox ig lo st msgs res :
  let log := client.sent c ++ [select_request mbox] in
  client.select_reply (client.server c) log = inl st →
  client.fetch_reply (client.server c) (log ++ [fetch_request]) = (msgs, res) →
  (2 * length msgs + 6 ≤ length sched)%nat →
  (FindDups sched c out mbox ig lo).2 ≠ Pending.
Proof.
  intros log Hsel Hfetch Hlen.
  destruct (FindDups_run_inv_any sched c out mbox ig lo st msgs res Hsel Hfetch)
    as (m & _ & -> & _ & Hend).
  simpl. unfold outcome.
  destruct (Hend Hlen) as [[fr ->]| ->]; discriminate.
Qed.

(** X4: when the selection fails, FindDups returns a nil list and that
    failure at once, under every schedule: the selection is the only command
    sent, the fetch is never issued. *)
Theorem FindDups_select_failure sched c out mbox ig lo e :
  client.select_reply (client.server c) (client.sent c ++ [select_request mbox])
  = inr e →
  FindDups sched c out mbox ig lo
  = (client.mkClient (client.server c) (client.sent c ++ [select_request mbox]),
     Return [] (Some e)).
Proof.
  intros Hsel. unfold FindDups. rewrite FindDups_run_unfold. simpl.
  rewrite Hsel. reflexivity.
Qed.

Lemma FindDups_select_failure_witness :
  FindDups [true; false; true] (session locked) "" "INBOX" true false
  = (client.mkClient locked [select_request "INBOX"],
     Return [] (Some "NO such mailbox")).
Proof.
  exact (FindDups_select_failure [true; false; true] (session locked) ""
           "INBOX" true false "NO such mailbox" eq_refl).
Defined.

(** X5: after a successful selection, under any schedule and for any
    stream: if FindDups has returned, every message of the stream carried an
    envelope, the error returned is the one of the fetch, the list returned
    is the Duplicate List of the whole stream, and the commands sent are the
    selection and the fetch. *)
Theorem FindDups_return_sound sched c out mbox ig lo st msgs res uids r :
  let log := client.sent c ++ [select_request mbox] in
  client.select_reply (client.server c) log = inl st →
  client.fetch_reply (client.server c) (log ++ [fetch_request]) = (msgs, res) →
  (FindDups sched c out mbox ig lo).2 = Return uids r →
  Forall (λ msg, is_Some (imap.Envelope_ msg)) msgs
  ∧ r = res
  ∧ uids = duplicate_list [] (records ig msgs)
  ∧ client.sent (FindDups sched c out mbox ig lo).1 = log ++ [fetch_request].
Proof.
  intros log Hsel Hfetch Hret.
  pose proof (FindDups_outcome_any sched c out mbox ig lo st msgs res Hsel Hfetch)
    as Hout.
  rewrite Hret in Hout. destruct Hout as (Hall & -> & -> & ->). auto.
Qed.

Lemma FindDups_return_sound_witness :
  Forall (λ msg, is_Some (imap.Envelope_ msg)) inbox
  ∧ Some "connection closed" = Some "connection closed"
  ∧ [30; 40]%N = duplicate_list [] (records false inbox)
  ∧ client.sent (FindDups (repeat false 14) (session flaky) "" "INBOX" false false).1
    = [select_request "INBOX"; fetch_request].
Proof.
  exact (FindDups_return_sound (repeat false 14) (session flaky) "" "INBOX"
           false false status inbox (Some "connection closed") [30; 40]%N
           (Some "connection closed") eq_refl eq_refl eq_refl).
Defined.

(** X6: when a message of the stream carries no envelope, FindDups never
    returns a list, under any schedule; under every schedule long enough the
    call has panicked. *)
Theorem FindDups_missing_envelope sched c out mbox ig lo st msgs res :
  let log := client.sent c ++ [select_request mbox] in
  client.select_reply (client.server c) log = inl st →
  client.fetch_reply (client.server c) (log ++ [fetch_request]) = (msgs, res) →
  Exists (λ msg, imap.Envelope_ msg = None) msgs →
  (∀ uids r, (FindDups sched c out mbox ig lo).2 ≠ Return uids r)
  ∧ ((2 * length msgs + 6 ≤ length sched)%nat →
     (FindDups sched c out mbox ig lo).2 = Panic).
Proof.
  intros log Hsel Hfetch Hbad.
  assert (¬ Forall (λ msg, is_Some (imap.Envelope_ msg)) msgs) as Hnot.
  { intros Hall. apply Exists_exists in Hbad as (msg & Hin & Hnone).
    apply (proj1 (Forall_forall _ _) Hall) in Hin. rewrite Hnone in Hin.
    destruct Hin; discriminate. }
  destruct (FindDups_run_inv_any sched c out mbox ig lo st msgs res Hsel Hfetch)
    as (m & _ & Hfd & Hinv & Hend).
  rewrite Hfd. simpl.
  pose proof (inv_any_outcome _ _ _ _ _ _ _ _ Hinv eq_refl eq_refl) as Hout.
  split.
  - intros uids r Hret. rewrite Hret in Hout. destruct Hout as [Hall _]. auto.
  - intros Hlen. unfold outcome in *.
    destruct (Hend Hlen) as [[fr Hk]| ->]; [|reflexivity].
    rewrite Hk in Hout. destruct Hout as [Hall _]. contradiction.
Qed.

Lemma FindDups_missing_envelope_witness :
  (FindDups (repeat true 12) (session broken) "" "INBOX" false false).2 = Panic.
Proof.
  refine (proj2 (FindDups_missing_envelope (repeat true 12) (session broken) ""
                   "INBOX" false false status _ None eq_refl eq_refl _) _).
  - apply Exists_cons_tl, Exists_cons_hd. reflexivity.
  - simpl. lia.
Defined.

(** X7: the connection and the result of FindDups do not depend on how the
    goroutine and the caller are interleaved, on [listOnlyDups] or on what
    was printed before: any two runs of at least 2N+6 turns agree. *)
Theorem FindDups_schedule_independent sched1 sched2 c out1 out2 mbox ig lo1 lo2
    st msgs res :
  let log := client.sent c ++ [select_request mbox] in
  client.select_reply (client.server c) log = inl st →
  client.fetch_reply (client.server c) (log ++ [fetch_request]) = (msgs, res) →
  (2 * length msgs + 6 ≤ length sched1)%nat →
  (2 * length msgs + 6 ≤ length sched2)%nat →
  FindDups sched1 c out1 mbox ig lo1 = FindDups sched2 c out2 mbox ig lo2.
Proof.
  intros log Hsel Hfetch Hlen1 Hlen2.
  destruct (FindDups_run_inv_any sched1 c out1 mbox ig lo1 st msgs res Hsel Hfetch)
    as (m1 & _ & -> & Hinv1 & Hend1).
  destruct (FindDups_run_inv_any sched2 c out2 mbox ig lo2 st msgs res Hsel Hfetch)
    as (m2 & _ & -> & Hinv2 & Hend2).
  pose proof (inv_any_outcome _ _ _ _ _ _ _ _ Hinv1 eq_refl eq_refl) as Hout1.
  pose proof (inv_any_outcome _ _ _ _ _ _ _ _ Hinv2 eq_refl eq_refl) as Hout2.
  unfold outcome in *.
  destruct (Hend1 Hlen1) as [[fr1 Hk1]|Hk1], (Hend2 Hlen2) as [[fr2 Hk2]|Hk2];
    rewrite Hk1 in *; rewrite Hk2 in *.
  - destruct Hout1 as (_ & _ & -> & ->), Hout2 as (_ & _ & -> & ->).
    destruct Hinv1 as (_ & _ & _ & _ & _ & _ & H1).
    destruct Hinv2 as (_ & _ & _ & _ & _ & _ & H2).
    rewrite Hk1 in H1. rewrite Hk2 in H2.
    destruct H1 as (_ & _ & _ & -> & _), H2 as (_ & _ & _ & -> & _). reflexivity.
  - destruct Hout1 as (Hall & _), Hout2 as (Hnot & _). contradiction.
  - destruct Hout1 as (Hnot & _), Hout2 as (Hall & _). contradiction.
  - destruct Hout1 as (_ & ->), Hout2 as (_ & ->). reflexivity.
Qed.

Lemma FindDups_schedule_independent_witness :
  FindDups (repeat true 14) (session flaky) "" "INBOX" true false
  = FindDups [false; true; false; true; false; true; false; true; false; true;
              false; true; false; true; false; true]
      (session flaky) "log: " "INBOX" true true.
Proof.
  apply (FindDups_schedule_independent _ _ (session flaky) _ _ "INBOX" true
           false true status inbox (Some "connection closed") eq_refl eq_refl);
    simpl; lia.
Defined.

(** ** The Duplicate List and what is left *)

Ltac unfold_elems H :=
  repeat first [rewrite elem_of_app in H | rewrite elem_of_cons in H
               | rewrite elem_of_nil in H];
  repeat first [rewrite elem_of_app | rewrite elem_of_cons | rewrite elem_of_nil].

Lemma filter_ext_in {A} (P1 P2 : A → Prop)
    `{!∀ x, Decision (P1 x), !∀ x, Decision (P2 x)} (l : list A) :
  (∀ x, x ∈ l → P1 x ↔ P2 x) → filter P1 l = filter P2 l.
Proof.
  induction l as [|a l IH]; intros Hiff; [reflexivity|].
  rewrite !filter_cons, IH
    by (intros x Hx; apply Hiff, elem_of_cons; auto).
  destruct (decide (P1 a)) as [H1|H1], (decide (P2 a)) as [H2|H2];
    try reflexivity; exfalso;
    pose proof (Hiff a (proj2 (elem_of_cons _ _ _) (or_introl eq_refl))); tauto.
Qed.

Lemma duplicate_list_sublist recs : ∀ earlier,
  duplicate_list earlier recs `sublist_of` recs.*2.
Proof.
  induction recs as [|[fp uid] recs IH]; intros earlier; simpl; [constructor|].
  destruct (bool_decide (fp ∈ earlier)); simpl.
  - apply sublist_skip, IH.
  - apply sublist_cons, IH.
Qed.

Lemma duplicate_list_nil recs : ∀ earlier,
  duplicate_list earlier recs = []
  ↔ NoDup recs.*1 ∧ ∀ fp, fp ∈ recs.*1 → fp ∉ earlier.
Proof.
  induction recs as [|[fp uid] recs IH]; intros earlier; simpl.
  - split; [intros _; split; [constructor|]|reflexivity].
    intros fp Hin. apply elem_of_nil in Hin. contradiction.
  - rewrite NoDup_cons. case_bool_decide as Hfp; simpl.
    + split; [discriminate|]. intros [_ Hout]. exfalso.
      apply (Hout fp); [apply elem_of_cons; auto|exact Hfp].
    + rewrite IH. split.
      * intros [Hnd Hout]. split; [split; [|exact Hnd]|].
        -- intros Hin. apply (Hout fp Hin). apply elem_of_app. right.
           apply elem_of_cons. auto.
        -- intros fp' Hin. apply elem_of_cons in Hin as [->|Hin]; [exact Hfp|].
           intros Hearlier. apply (Hout fp' Hin). apply elem_of_app. auto.
      * intros [[Hfresh Hnd] Hout]. split; [exact Hnd|].
        intros fp' Hin Hearlier. apply elem_of_app in Hearlier as [He|He].
        -- apply (Hout fp'); [apply elem_of_cons; auto|exact He].
        -- apply elem_of_cons in He as [->|He]; [contradiction|].
           apply elem_of_nil in He. contradiction.
Qed.

(** Among records with distinct identifiers, those not in the Duplicate List
    carry pairwise distinct fingerprints, none of them seen earlier, and
    together with the earlier ones all the fingerprints of the stream. *)
Lemma elem_of_snoc_absorb {A} (x y : A) (l k : list A) :
  y ∈ l → x ∈ (l ++ [y]) ++ k ↔ x ∈ l ++ k.
Proof.
  intros Hy. rewrite !elem_of_app, list_elem_of_singleton.
  split; [intros [[H| ->]|H]; auto|intros [H|H]; auto].
Qed.

Lemma duplicate_list_survivors recs : ∀ earlier,
  NoDup recs.*2 →
  let left := filter (λ r, r.2 ∉ duplicate_list earlier recs) recs in
  NoDup left.*1
  ∧ (∀ fp, fp ∈ left.*1 → fp ∉ earlier)
  ∧ (∀ fp, fp ∈ earlier ++ recs.*1 ↔ fp ∈ earlier ++ left.*1).
Proof.
  induction recs as [|[fp uid] recs IH]; intros earlier Hnd.
  - simpl. split; [constructor|]. split; [|reflexivity].
    intros fp Hin. apply elem_of_nil in Hin. contradiction.
  - rewrite fmap_cons in Hnd. cbn [snd] in Hnd.
    apply NoDup_cons in Hnd as [Huid Hnd].
    destruct (IH (earlier ++ [fp]) Hnd) as (IHnd & IHout & IHall).
    cbn [duplicate_list]. cbv zeta in *.
    set (rest := duplicate_list (earlier ++ [fp]) recs) in *.
    assert (uid ∉ rest) as Hfresh.
    { intros Hin. apply Huid.
      exact (elem_of_sublist _ _ _ Hin
               (duplicate_list_sublist recs (earlier ++ [fp]))). }
    assert (filter (λ r : string * uint32, r.2 ∉ [uid] ++ rest) recs
            = filter (λ r : string * uint32, r.2 ∉ rest) recs) as Hsame.
    { apply filter_ext_in. intros [fp' uid'] Hin. cbn [snd app].
      rewrite elem_of_cons. split; [tauto|].
      intros Hn [->|Hr]; [|tauto].
      apply Huid. apply list_elem_of_fmap. exists (fp', uid). auto. }
    rewrite filter_cons. cbn [snd fst].
    assert (∀ l x, x ∈ earlier ++ fp :: l ↔ x ∈ (earlier ++ [fp]) ++ l) as Hmid
      by (intros l x; rewrite <- app_assoc; reflexivity).
    case_bool_decide as Hfp.
    + rewrite decide_False
        by (intros Hn; apply Hn, elem_of_app; left; apply elem_of_cons; auto).
      rewrite Hsame.
      split; [exact IHnd|]. split.
      * intros fp' Hin He. apply (IHout fp' Hin). apply elem_of_app. auto.
      * intros fp'. rewrite fmap_cons. cbn [fst].
        rewrite Hmid, IHall. apply elem_of_snoc_absorb. exact Hfp.
    + cbn [app]. rewrite decide_True by exact Hfresh.
      rewrite !fmap_cons. cbn [fst]. rewrite NoDup_cons.
      split; [split; [|exact IHnd]|split].
      * intros Hin. apply (IHout fp Hin). apply elem_of_app. right.
        apply elem_of_cons. auto.
      * intros fp' Hin. apply elem_of_cons in Hin as [->|Hin]; [exact Hfp|].
        intros He. apply (IHout fp' Hin). apply elem_of_app. auto.
      * intros fp'. rewrite !Hmid. apply IHall.
Qed.

Lemma records_cons ig (msg : imap.Message) (msgs : list imap.Message) :
  records ig (msg :: msgs)
  = match imap.Envelope_ msg with
    | Some env => (fingerprint ig env, imap.Uid msg) :: records ig msgs
    | None => records ig msgs
    end.
Proof. unfold records. simpl. destruct (imap.Envelope_ msg); reflexivity. Qed.

Lemma records_filter ig (uids : list uint32) (msgs : list imap.Message) :
  records ig (filter (λ msg, imap.Uid msg ∉ uids) msgs)
  = filter (λ r : string * uint32, r.2 ∉ uids) (records ig msgs).
Proof.
  induction msgs as [|msg msgs IH]; [reflexivity|].
  rewrite filter_cons, (records_cons ig msg msgs).
  destruct (decide (imap.Uid msg ∉ uids)) as [Hk|Hk];
    rewrite ?records_cons; destruct (imap.Envelope_ msg) as [env|]; try exact IH.
  - rewrite filter_cons_True by exact Hk. rewrite IH. reflexivity.
  - rewrite filter_cons_False by exact Hk. exact IH.
Qed.

Lemma records_uids ig (msgs : list imap.Message) :
  Forall (λ msg, is_Some (imap.Envelope_ msg)) msgs →
  (records ig msgs).*2 = map imap.Uid msgs.
Proof.
  induction 1 as [|msg msgs [env Henv] _ IH]; [reflexivity|].
  rewrite records_cons, Henv, fmap_cons. cbn [snd map]. f_equal. exact IH.
Qed.

(** X10: when the identifiers of the mailbox are pairwise distinct and
    FindDups has returned [uids], the messages left once [uids] are removed
    carry pairwise distinct fingerprints, and every fingerprint of the
    mailbox is still carried by one of them. *)
Theorem FindDups_keeps_one_of_each sched c out mbox ig lo st msgs res uids r :
  let log := client.sent c ++ [select_request mbox] in
  client.select_reply (client.server c) log = inl st →
  client.fetch_reply (client.server c) (log ++ [fetch_request]) = (msgs, res) →
  NoDup (map imap.Uid msgs) →
  (FindDups sched c out mbox ig lo).2 = Return uids r →
  let left := records ig (kept uids msgs) in
  length left = length (kept uids msgs)
  ∧ NoDup left.*1
  ∧ ∀ fp, fp ∈ (records ig msgs).*1 ↔ fp ∈ left.*1.
Proof.
  intros log Hsel Hfetch Huids Hret left.
  pose proof (FindDups_outcome_any sched c out mbox ig lo st msgs res Hsel Hfetch)
    as Hout.
  rewrite Hret in Hout. destruct Hout as (Hall & _ & Hdl & _).
  assert (Forall (λ msg, is_Some (imap.Envelope_ msg)) (kept uids msgs)) as Hkept.
  { apply Forall_forall. intros msg Hin. apply list_elem_of_filter in Hin as [_ Hin].
    exact (proj1 (Forall_forall _ _) Hall msg Hin). }
  split.
  { unfold left. rewrite <- (length_fmap snd), (records_uids ig _ Hkept).
    apply length_map. }
  unfold left, kept. rewrite records_filter, Hdl.
  rewrite <- (records_uids ig msgs Hall) in Huids.
  destruct (duplicate_list_survivors (records ig msgs) [] Huids) as (Hnd & _ & Hsame).
  split; [exact Hnd|exact Hsame].
Qed.

Lemma FindDups_keeps_one_of_each_witness :
  kept [30; 40]%N inbox
  = [imap.mkMessage 1%N (Some env_a) 10%N; imap.mkMessage 2%N (Some env_c) 20%N]
  ∧ NoDup (records false (kept [30; 40]%N inbox)).*1.
Proof.
  split; [reflexivity|].
  refine (proj1 (proj2 (FindDups_keeps_one_of_each (repeat true 14)
            (session steady) "" "INBOX" false false status inbox None
            [30; 40]%N None eq_refl eq_refl _ eq_refl))).
  repeat (apply NoDup_cons; split; [rewrite ?not_elem_of_cons; split_and?;
    try discriminate; apply not_elem_of_nil|]). apply NoDup_nil. exact I.
Defined.

(** X9: on a stream of enveloped messages, under a schedule long enough,
    FindDups returns the empty list exactly when the fingerprints of the
    stream are pairwise distinct. *)
Theorem FindDups_reports_nothing_iff sched c out mbox ig lo st msgs res :
  let log := client.sent c ++ [select_request mbox] in
  client.select_reply (client.server c) log = inl st →
  client.fetch_reply (client.server c) (log ++ [fetch_request]) = (msgs, res) →
  Forall (λ msg, is_Some (imap.Envelope_ msg)) msgs →
  (2 * length msgs + 6 ≤ length sched)%nat →
  (FindDups sched c out mbox ig lo).2 = Return [] res
  ↔ NoDup (records ig msgs).*1.
Proof.
  intros log Hsel Hfetch Hall Hlen.
  pose proof (FindDups_outcome_any sched c out mbox ig lo st msgs res Hsel Hfetch)
    as Hout.
  pose proof (FindDups_over sched c out mbox ig lo st msgs res Hsel Hfetch Hlen)
    as Hover.
  destruct ((FindDups sched c out mbox ig lo).2) as [uids r| |];
    [|destruct Hout; contradiction|contradiction].
  destruct Hout as (_ & -> & -> & _). split.
  - intros [= Hnil]. apply duplicate_list_nil in Hnil as [Hnd _]. exact Hnd.
  - intros Hnd. f_equal. apply duplicate_list_nil. split; [exact Hnd|].
    intros fp _. apply not_elem_of_nil.
Qed.

Lemma FindDups_reports_nothing_iff_witness :
  ¬ NoDup (records true inbox).*1.
Proof.
  intros Hnd.
  apply (FindDups_reports_nothing_iff (repeat true 14) (session steady) ""
           "INBOX" true true status inbox None eq_refl eq_refl) in Hnd.
  - vm_compute in Hnd. discriminate Hnd.
  - repeat constructor; eexists; reflexivity.
  - simpl. lia.
Defined.

(** X8: the list FindDups returns is a subsequence of the identifiers of
    the stream without its first message, so it keeps their order and has at
    most N-1 entries. *)
Theorem FindDups_subsequence sched c out mbox ig lo st msgs res uids r :
  let log := client.sent c ++ [select_request mbox] in
  client.select_reply (client.server c) log = inl st →
  client.fetch_reply (client.server c) (log ++ [fetch_request]) = (msgs, res) →
  (FindDups sched c out mbox ig lo).2 = Return uids r →
  uids `sublist_of` map imap.Uid (tail msgs)
  ∧ (length uids ≤ length msgs - 1)%nat.
Proof.
  intros log Hsel Hfetch Hret.
  pose proof (FindDups_outcome_any sched c out mbox ig lo st msgs res Hsel Hfetch)
    as Hout.
  rewrite Hret in Hout. destruct Hout as (Hall & _ & -> & _).
  assert (duplicate_list [] (records ig msgs) `sublist_of` map imap.Uid (tail msgs))
    as Hsub.
  { destruct Hall as [|msg msgs [env Henv] Hall]; [constructor|].
    rewrite records_cons, Henv. cbn [duplicate_list tail].
    rewrite bool_decide_eq_false_2 by apply not_elem_of_nil.
    rewrite <- (records_uids ig msgs Hall). apply duplicate_list_sublist. }
  split; [exact Hsub|].
  apply sublist_length in Hsub. rewrite length_map in Hsub.
  destruct msgs; simpl in *; lia.
Qed.

Lemma FindDups_subsequence_witness :
  [30; 40]%N `sublist_of` [20; 30; 40]%N.
Proof.
  exact (proj1 (FindDups_subsequence (repeat true 14) (session steady) ""
                  "INBOX" false false status inbox None [30; 40]%N None
                  eq_refl eq_refl eq_refl)).
Defined.

(** ** FindDups: the channels and the goroutine *)





Section RunOut.

Variables (mbox : string) (ignoreMessageID listOnlyDups : bool).
Variables (c : client.Client) (fr0 : Frame).
Variables (msgs : list imap.Message) (res : option error).

Hypothesis fetch_reply_eq :
  client.fetch_reply (client.server c) (client.sent c ++ [fetch_request])
  = (msgs, res).
Hypothesis all_enveloped : Forall (λ msg, is_Some (imap.Envelope_ msg)) msgs.

Local Abbreviation I := (Inv mbox ignoreMessageID listOnlyDups c fr0 msgs res).
Local Abbreviation kstep := (consumer_step mbox ignoreMessageID listOnlyDups).

(** When neither party can move, both are done. *)
Lemma stuck_done m :
  I m → producer_step m = None → kstep m = None → todo msgs m = 0%nat.
Proof.
  intros Hm Hp Hk.
  edestruct (progress mbox ignoreMessageID listOnlyDups c fr0 msgs res)
    as [fr Hret]; [eassumption..|].
  destruct m as [cn e [mb mcap mcl] [eb ecap ecl] p k].
  unfold Inv, todo, producer_step in *. simpl in *. subst k.
  destruct Hm as (_ & _ & _ & _ & _ & _ & _ & Hann & _).
  destruct p; simpl in *; try discriminate. reflexivity.
Qed.

Lemma exec_runs_out sched : ∀ m,
  I m → (todo msgs m ≤ length sched)%nat →
  todo msgs (exec mbox ignoreMessageID listOnlyDups sched m) = 0%nat.
Proof.
  induction sched as [|turn sched IH]; intros m Hm Hlen; simpl.
  - simpl in Hlen. lia.
  - simpl in Hlen.
    destruct (producer_step m) as [mp|] eqn:Hp;
      destruct (kstep m) as [mk|] eqn:Hk; destruct turn;
      try (edestruct (producer_step_inv mbox ignoreMessageID listOnlyDups c fr0
                        msgs res) as [Hm' Htodo]; [eassumption..|];
           apply IH; [exact Hm'|lia]);
      try (edestruct (consumer_step_inv mbox ignoreMessageID listOnlyDups c fr0
                        msgs res) as [Hm' Htodo]; [eassumption..|];
           apply IH; [exact Hm'|lia]);
      exact (stuck_done m Hm Hp Hk).
Qed.

End RunOut.

(** X12: on a stream of enveloped messages, under every schedule long
    enough, the goroutine has exited and both channels are closed and empty:
    nothing is left queued and no goroutine is left behind. *)
Theorem FindDups_goroutine_exits sched c out mbox ig lo st msgs res :
  let log := client.sent c ++ [select_request mbox] in
  client.select_reply (client.server c) log = inl st →
  client.fetch_reply (client.server c) (log ++ [fetch_request]) = (msgs, res) →
  Forall (λ msg, is_Some (imap.Envelope_ msg)) msgs →
  (2 * length msgs + 6 ≤ length sched)%nat →
  ∃ m,
    (FindDups_run sched c out mbox ig lo).2 = inr m
    ∧ producer m = GoExit
    ∧ msgChan m = mkChan [] 1000 true
    ∧ errChan m = mkChan [] 1 true.
Proof.
  intros log Hsel Hfetch Hall Hlen.
  rewrite FindDups_run_unfold. simpl. fold log. rewrite Hsel.
  eexists. split; [reflexivity|].
  set (c1 := client.issue c (select_request mbox)).
  set (out1 := out +:+ "MBOX UID " +:+ pretty (imap.UidValidity st) +:+ LF).
  assert (Inv mbox ig lo c1 (mkFrame ∅ [] out1) msgs res (spawn c1 out1)) as Hinv
    by (apply spawn_inv; reflexivity).
  pose proof (exec_inv mbox ig lo c1 _ msgs res Hfetch Hall sched _ Hinv) as Hend.
  pose proof (exec_runs_out mbox ig lo c1 _ msgs res Hfetch Hall sched _ Hinv)
    as Hzero.
  rewrite spawn_todo in Hzero. specialize (Hzero Hlen).
  destruct (exec mbox ig lo sched (spawn c1 out1))
    as [cn e [mb mcap mcl] [eb ecap ecl] p k].
  unfold Inv, todo in *. simpl in *.
  destruct Hend as (_ & _ & -> & -> & -> & -> & Hk).
  destruct p; try (exfalso; lia).
  destruct k as [fr|fr|fr|]; try contradiction; try (exfalso; lia).
  destruct Hk as (-> & _ & _ & _ & ->). auto.
Qed.

Lemma FindDups_goroutine_exits_witness :
  ∃ m,
    (FindDups_run (repeat false 14) (session flaky) "" "INBOX" false false).2
    = inr m
    ∧ producer m = GoExit.
Proof.
  destruct (FindDups_goroutine_exits (repeat false 14) (session flaky) ""
              "INBOX" false false status inbox (Some "connection closed")
              eq_refl eq_refl) as (m & Hrun & Hp & _).
  - repeat constructor; eexists; reflexivity.
  - simpl. lia.
  - exists m. auto.
Defined.

(** ** RemoveDups: the commands it can send *)

Lemma mark_loop_commands srv uids : ∀ log,
  ∃ k, (k ≤ length uids)%nat
    ∧ (mark_loop (client.mkClient srv log) uids).1
      = client.mkClient srv (log ++ map mark_request (take k uids))
    ∧ ((mark_loop (client.mkClient srv log) uids).2 = None → k = length uids).
Proof.
  induction uids as [|uid uids IH]; intros log.
  - exists 0%nat. simpl. rewrite app_nil_r. auto.
  - rewrite mark_loop_cons.
    destruct (mark_reply srv log (uid :: uids) 0) as [e|].
    + exists 1%nat. simpl. split; [lia|]. split; [reflexivity|discriminate].
    + destruct (IH (log ++ [mark_request uid])) as (k & Hk & Hsent & Hall).
      exists (S k). simpl. split; [lia|]. rewrite Hsent, <- app_assoc.
      split; [reflexivity|]. intros Hnone. rewrite (Hall Hnone). reflexivity.
Qed.

(** The commands of a call: the selection, then the marks of a prefix of
    the list, then the purge if the whole list was marked. *)
Lemma RemoveDups_sent c mbox uids :
  ∃ k tail,
    (k ≤ length uids)%nat
    ∧ (RemoveDups c mbox uids).1
      = client.mkClient (client.server c)
          (client.sent c ++ select_request mbox
             :: map mark_request (take k uids) ++ tail)
    ∧ (tail = [] ∨ (tail = [client.CmdExpunge] ∧ k = length uids))
    ∧ ((RemoveDups c mbox uids).2 = None → tail = [client.CmdExpunge]).
Proof.
  rewrite RemoveDups_unfold. cbv zeta.
  destruct (client.select_reply _ _) as [st|e].
  - destruct (mark_loop_commands (client.server c) uids
                (client.sent c ++ [select_request mbox])) as (k & Hk & Hsent & Hall).
    destruct (mark_loop _ uids) as [c' [e|]] eqn:Hrun; simpl in Hsent, Hall.
    + exists k, []. subst c'. simpl. rewrite app_nil_r, <- app_assoc.
      split_and!; auto. discriminate.
    + exists k, [client.CmdExpunge]. subst c'.
      rewrite (Hall eq_refl), firstn_all in *.
      unfold client.Expunge, client.issue. simpl.
      rewrite <- !app_assoc. simpl. split_and!; auto.
  - exists 0%nat, []. simpl. split_and!; auto; [lia|discriminate].
Qed.

(** X14: whatever the server answers, the commands RemoveDups sends are the
    selection and then only marks of identifiers of its list and the purge;
    the purge is sent only as the last command after a mark of every
    identifier, and is always sent when the call succeeds. *)
Theorem RemoveDups_commands c mbox uids :
  let c' := (RemoveDups c mbox uids).1 in
  ∃ issued,
    client.sent c' = client.sent c ++ select_request mbox :: issued
    ∧ (∀ cmd, cmd ∈ issued →
         cmd = client.CmdExpunge ∨ ∃ uid, uid ∈ uids ∧ cmd = mark_request uid)
    ∧ (client.CmdExpunge ∈ issued →
         issued = map mark_request uids ++ [client.CmdExpunge])
    ∧ ((RemoveDups c mbox uids).2 = None → client.CmdExpunge ∈ issued).
Proof.
  intros c'. subst c'.
  destruct (RemoveDups_sent c mbox uids) as (k & tail & Hk & -> & Htail & Hnone).
  eexists. split; [reflexivity|].
  assert (∀ l, client.CmdExpunge ∉ map mark_request l) as Hnomark.
  { intros l Hin. apply list_elem_of_fmap in Hin as (uid & Heq & _). discriminate. }
  split_and!.
  - intros cmd Hin. apply elem_of_app in Hin as [Hin|Hin].
    + right. apply list_elem_of_fmap in Hin as (uid & -> & Hin).
      exists uid. split; [|reflexivity].
      exact (elem_of_sublist _ _ _ Hin (sublist_take _ _)).
    + left. destruct Htail as [->|[-> _]]; [apply elem_of_nil in Hin; contradiction|].
      apply list_elem_of_singleton in Hin. exact Hin.
  - intros Hin. destruct Htail as [->|[-> ->]].
    + rewrite app_nil_r in Hin. apply Hnomark in Hin. contradiction.
    + rewrite firstn_all. reflexivity.
  - intros Hr. rewrite (Hnone Hr). apply elem_of_app. right.
    apply list_elem_of_singleton. reflexivity.
Qed.

(** ** main *)

Lemma string_append_assoc (s1 s2 s3 : string) :
  (s1 +:+ s2) +:+ s3 = s1 +:+ s2 +:+ s3.
Proof.
  induction s1 as [|a s1 IH]; [reflexivity|].
  change (String a ((s1 +:+ s2) +:+ s3) = String a (s1 +:+ s2 +:+ s3)).
  f_equal. exact IH.
Qed.

Lemma string_append_nil_r (s : string) : s +:+ "" = s.
Proof.
  induction s as [|a s IH]; [reflexivity|].
  change (String a (s +:+ "") = String a s). f_equal. exact IH.
Qed.

Lemma port_993 : pretty 993 = "993".
Proof. vm_compute. reflexivity. Qed.

(** [main] with its constants evaluated: TLS, no STARTTLS, port 993. *)
Lemma main_unfold sched net f :
  main sched net f
  = let addr := flag.server f +:+ ":" +:+ "993" in
    let dial := EvDialTLS addr (flag.server f) in
    let login := EvLogin (flag.username f) (flag.password f) in
    if decide (flag.username f = "" ∨ flag.password f = ""
               ∨ flag.server f = "" ∨ flag.mbox f = "") then
      Exited (mkProcess [] None "" "" true)
    else
      match DialTLS_reply net addr (flag.server f) with
      | inr _ => Crashed [dial] None
      | inl srv =>
          match Login_reply net addr (flag.username f) (flag.password f) with
          | Some _ => Crashed [dial; login] (Some (client.mkClient srv []))
          | None =>
              let evs := [dial; login; EvLogout] in
              match FindDups_run sched (client.mkClient srv []) "" (flag.mbox f)
                      (flag.ignoreMessageID f) (flag.listOnlyDups f) with
              | (c, inl e) => Exited (mkProcess evs (Some c) "" (complaint e) false)
              | (c, inr m) =>
                  match consumer m with
                  | Ranging _ | Receiving _ => Unfinished
                  | Panicked =>
                      if fetch_returns m then Crashed evs (Some c)
                      else Hung evs (Some c)
                  | Returned fr =>
                      match err m with
                      | Some e =>
                          Exited (mkProcess evs (Some c) (stdout fr)
                                    (complaint e) false)
                      | None =>
                          if flag.dryRun f then
                            Exited (mkProcess evs (Some c)
                                      (stdout fr +:+ "would have removed "
                                         +:+ pretty (length (dups fr))
                                         +:+ " messages" +:+ LF) "" false)
                          else
                            let out :=
                              stdout fr +:+ "will remove "
                                +:+ pretty (length (dups fr))
                                +:+ " messages" +:+ LF in
                            match RemoveDups c (flag.mbox f) (dups fr) with
                            | (c, Some e) =>
                                Exited (mkProcess evs (Some c) out (complaint e) false)
                            | (c, None) =>
                                Exited (mkProcess evs (Some c)
                                          (out +:+ "done" +:+ LF) "" false)
                            end
                      end
                  end
              end
          end
      end.
Proof.
  unfold main. cbv zeta. change (0 =? 0) with true. cbv iota.
  rewrite port_993.
  destruct (decide _); [reflexivity|].
  destruct (DialTLS_reply net _ _); [|reflexivity].
  destruct (Login_reply net _ _ _); [reflexivity|].
  destruct (FindDups_run _ _ _ _ _ _) as [c [e|m]]; [reflexivity|].
  destruct (consumer m); try reflexivity.
  destruct (err m); [reflexivity|].
  destruct (flag.dryRun f); reflexivity.
Qed.




(** X15: with a required flag empty, main prints the usage and connects
    nowhere. Otherwise it dials the server flag on port 993 with TLS; when
    the dial is refused it panics with nothing else done; when the login is
    refused it panics with no command sent and no Logout called; when both
    are accepted, main is unfinished exactly while the call of FindDups is
    pending, and else it has logged in once with the two credentials, has
    called Logout, and the first command on the connection is the selection
    of the mailbox flag. *)
Theorem main_session sched net f :
  let addr := flag.server f +:+ ":993" in
  let dial := EvDialTLS addr (flag.server f) in
  let login := EvLogin (flag.username f) (flag.password f) in
  if decide (flag.username f = "" ∨ flag.password f = ""
             ∨ flag.server f = "" ∨ flag.mbox f = "") then
    main sched net f = Exited (mkProcess [] None "" "" true)
  else
    match DialTLS_reply net addr (flag.server f) with
    | inr _ => main sched net f = Crashed [dial] None
    | inl srv =>
        match Login_reply net addr (flag.username f) (flag.password f) with
        | Some _ =>
            main sched net f
            = Crashed [dial; login] (Some (client.mkClient srv []))
        | None =>
            match (FindDups sched (client.mkClient srv []) "" (flag.mbox f)
                     (flag.ignoreMessageID f) (flag.listOnlyDups f)).2 with
            | Pending => main sched net f = Unfinished
            | _ =>
                end_events (main sched net f) = [dial; login; EvLogout]
                ∧ ∃ c rest,
                    end_connection (main sched net f) = Some c
                    ∧ client.server c = srv
                    ∧ client.sent c = select_request (flag.mbox f) :: rest
            end
        end
    end.
Proof.
  intros addr dial login.
  remember (main sched net f) as x eqn:Hx.
  rewrite main_unfold in Hx. cbv zeta in Hx.
  change (flag.server f +:+ ":" +:+ "993") with addr in Hx.
  fold dial login in Hx.
  destruct (decide _) as [Hempty|Hfull]; [exact Hx|].
  destruct (DialTLS_reply net addr _) as [srv|e]; [|exact Hx].
  destruct (Login_reply net addr _ _); [exact Hx|].
  destruct (client.select_reply srv [select_request (flag.mbox f)])
    as [st|e] eqn:Hsel.
  - destruct (client.fetch_reply srv [select_request (flag.mbox f); fetch_request])
      as [msgs res] eqn:Hfetch.
    destruct (FindDups_run_inv_any sched (client.mkClient srv []) ""
                (flag.mbox f) (flag.ignoreMessageID f) (flag.listOnlyDups f)
                st msgs res Hsel Hfetch) as (m & Hrun & -> & Hinv & _).
    rewrite Hrun in Hx.
    pose proof (inv_any_outcome _ _ _ _ _ _ _ _ Hinv eq_refl eq_refl) as Hout.
    unfold outcome in Hout. unfold outcome. simpl.
    destruct (consumer m) as [fr|fr|fr|]; [exact Hx|exact Hx| |].
    + destruct Hout as (_ & _ & _ & Hconn).
      destruct (err m) as [e|];
        [subst x; simpl; rewrite Hconn; split; [reflexivity|]; eauto|].
      destruct (flag.dryRun f);
        [subst x; simpl; rewrite Hconn; split; [reflexivity|]; eauto|].
      destruct (RemoveDups_sent (conn m) (flag.mbox f) (dups fr))
        as (k & tail & _ & Hsent & _).
      rewrite Hconn in Hsent at 2 3. simpl in Hsent.
      destruct (RemoveDups (conn m) (flag.mbox f) (dups fr)) as [c' [e|]];
        simpl in Hsent; subst x c'; simpl; split; try reflexivity; eauto.
    + destruct Hout as [_ Hconn].
      destruct (fetch_returns m); subst x; simpl; rewrite Hconn;
        (split; [reflexivity|]); eauto.
  - unfold FindDups. rewrite FindDups_run_unfold in Hx |- *.
    simpl in Hx |- *. rewrite Hsel in Hx |- *.
    subst x. simpl. split; [reflexivity|]. eauto.
Qed.

(** X16: on the connection main ends with, every command other than the
    selection and the fetch was sent with the dry-run flag off, after a fetch
    that returned no error on a stream of enveloped messages, and is the
    purge or the mark of an identifier of the Duplicate List of that stream.
    (What the purge then removes is the server's doing: every message of the
    mailbox that carries the deleted flag.) *)
Theorem main_marks_only_duplicates sched net f srv msgs res c :
  let mbox := flag.mbox f in
  DialTLS_reply net (flag.server f +:+ ":993") (flag.server f) = inl srv →
  client.fetch_reply srv [select_request mbox; fetch_request] = (msgs, res) →
  end_connection (main sched net f) = Some c →
  client.server c = srv
  ∧ ∀ cmd, cmd ∈ client.sent c →
      cmd = select_request mbox
      ∨ cmd = fetch_request
      ∨ (flag.dryRun f = false
         ∧ res = None
         ∧ Forall (λ msg, is_Some (imap.Envelope_ msg)) msgs
         ∧ (cmd = client.CmdExpunge
            ∨ ∃ uid, uid ∈ duplicate_list [] (records (flag.ignoreMessageID f) msgs)
                     ∧ cmd = mark_request uid)).
Proof.
  intros mbox Hdial Hfetch. rewrite main_unfold. cbv zeta.
  destruct (decide _) as [Hempty|Hfull]; [discriminate|].
  change (flag.server f +:+ ":" +:+ "993") with (flag.server f +:+ ":993").
  rewrite Hdial.
  assert (∀ l : list client.Command,
            (∀ cmd, cmd ∈ l → cmd = select_request mbox ∨ cmd = fetch_request) →
          ∀ cmd, cmd ∈ l →
            cmd = select_request mbox ∨ cmd = fetch_request
            ∨ (flag.dryRun f = false ∧ res = None
               ∧ Forall (λ msg, is_Some (imap.Envelope_ msg)) msgs
               ∧ (cmd = client.CmdExpunge
                  ∨ ∃ uid, uid ∈ duplicate_list [] (records (flag.ignoreMessageID f) msgs)
                           ∧ cmd = mark_request uid))) as Hscan.
  { intros l Hl cmd Hin. destruct (Hl cmd Hin); auto. }
  destruct (Login_reply net _ _ _).
  { intros [= <-]. split; [reflexivity|]. intros cmd Hin.
    apply elem_of_nil in Hin. contradiction. }
  destruct (client.select_reply srv [select_request mbox]) as [st|e] eqn:Hsel.
  - destruct (FindDups_run_inv_any sched (client.mkClient srv []) ""
                mbox (flag.ignoreMessageID f) (flag.listOnlyDups f) st msgs res
                Hsel Hfetch) as (m & Hrun & _ & Hinv & _).
    fold mbox. rewrite Hrun.
    pose proof (inv_any_outcome _ _ _ _ _ _ _ _ Hinv eq_refl eq_refl) as Hout.
    unfold outcome in Hout.
    destruct (consumer m) as [fr|fr|fr|]; [discriminate|discriminate| |].
    + destruct Hout as (Hall & Hres & Hdl & Hconn).
      assert (∀ cmd, cmd ∈ client.sent (conn m) →
              cmd = select_request mbox ∨ cmd = fetch_request) as Hfd.
      { rewrite Hconn. simpl. intros cmd Hin.
        apply elem_of_cons in Hin as [->|Hin]; [auto|].
        apply list_elem_of_singleton in Hin. auto. }
      destruct (err m) as [e|].
      { intros [= <-]. split; [rewrite Hconn; reflexivity|]. apply Hscan, Hfd. }
      destruct (flag.dryRun f) eqn:Hdry.
      { intros [= <-]. split; [rewrite Hconn; reflexivity|]. apply Hscan, Hfd. }
      destruct (RemoveDups_sent (conn m) mbox (dups fr))
        as (k & tail & Hk & Hsent & Htail & _).
      assert (end_connection
                match RemoveDups (conn m) mbox (dups fr) with
                | (c0, Some e) =>
                    Exited (mkProcess
                      [EvDialTLS (flag.server f +:+ ":993") (flag.server f);
                       EvLogin (flag.username f) (flag.password f); EvLogout]
                      (Some c0)
                      (stdout fr +:+ "will remove " +:+ pretty (length (dups fr))
                         +:+ " messages" +:+ LF) (complaint e) false)
                | (c0, None) =>
                    Exited (mkProcess
                      [EvDialTLS (flag.server f +:+ ":993") (flag.server f);
                       EvLogin (flag.username f) (flag.password f); EvLogout]
                      (Some c0)
                      ((stdout fr +:+ "will remove " +:+ pretty (length (dups fr))
                          +:+ " messages" +:+ LF) +:+ "done" +:+ LF) "" false)
                end = Some (RemoveDups (conn m) mbox (dups fr)).1) as ->
        by (destruct (RemoveDups _ _ _) as [c' [e|]]; reflexivity).
      intros [= <-]. rewrite Hsent. simpl. split; [rewrite Hconn; reflexivity|].
      intros cmd Hin. apply elem_of_app in Hin as [Hin|Hin]; [apply Hscan in Hin; auto|].
      apply elem_of_cons in Hin as [->|Hin]; [auto|].
      right. right. split; [reflexivity|]. split; [symmetry; exact Hres|].
      split; [exact Hall|].
      apply elem_of_app in Hin as [Hin|Hin].
      * right. apply list_elem_of_fmap in Hin as (uid & -> & Hin).
        exists uid. split; [|reflexivity]. rewrite <- Hdl.
        exact (elem_of_sublist _ _ _ Hin (sublist_take _ _)).
      * left. destruct Htail as [->|[-> _]]; [apply elem_of_nil in Hin; contradiction|].
        apply list_elem_of_singleton in Hin. exact Hin.
    + destruct Hout as [_ Hconn].
      assert (end_connection
                (if fetch_returns m
                 then Crashed
                        [EvDialTLS (flag.server f +:+ ":993") (flag.server f);
                         EvLogin (flag.username f) (flag.password f); EvLogout]
                        (Some (conn m))
                 else Hung
                        [EvDialTLS (flag.server f +:+ ":993") (flag.server f);
                         EvLogin (flag.username f) (flag.password f); EvLogout]
                        (Some (conn m))) = Some (conn m)) as ->
        by (destruct (fetch_returns m); reflexivity).
      intros [= <-].
      split; [rewrite Hconn; reflexivity|]. apply Hscan. rewrite Hconn. simpl.
      intros cmd Hin. apply elem_of_cons in Hin as [->|Hin]; [auto|].
      apply list_elem_of_singleton in Hin. auto.
  - fold mbox. rewrite FindDups_run_unfold. simpl. fold mbox. rewrite Hsel.
    intros [= <-]. split; [reflexivity|]. apply Hscan. simpl.
    intros cmd Hin. apply list_elem_of_singleton in Hin. auto.
Qed.

Lemma main_marks_only_duplicates_witness :
  mark_request 40%N = select_request "INBOX"
  ∨ mark_request 40%N = fetch_request
  ∨ (false = false ∧ (None : option error) = None
     ∧ Forall (λ msg, is_Some (imap.Envelope_ msg)) inbox
     ∧ (mark_request 40%N = client.CmdExpunge
        ∨ ∃ uid, uid ∈ duplicate_list [] (records false inbox)
                 ∧ mark_request 40%N = mark_request uid)).
Proof.
  refine (proj2 (main_marks_only_duplicates (repeat true 14) (lan steady)
                   (flags_of false) steady inbox None
                   (client.mkClient steady
                      [select_request "INBOX"; fetch_request;
                       select_request "INBOX"; mark_request 30%N;
                       mark_request 40%N; client.CmdExpunge])
                   eq_refl eq_refl eq_refl) (mark_request 40%N) _).
  simpl. rewrite !elem_of_cons. auto 10.
Defined.



(** X18: after a successful login and selection, when the fetch fails or
    the dry-run flag is set, main sends the selection and the fetch and
    nothing else; it prints the classification lines, then the fetch error on
    standard error or the would-have-removed count on standard output. *)
Theorem main_scan_only sched net f srv st msgs res :
  let mbox := flag.mbox f in
  let fr0 := mkFrame ∅ [] ("MBOX UID " +:+ pretty (imap.UidValidity st) +:+ LF) in
  ¬ (flag.username f = "" ∨ flag.password f = ""
     ∨ flag.server f = "" ∨ flag.mbox f = "") →
  DialTLS_reply net (flag.server f +:+ ":993") (flag.server f) = inl srv →
  Login_reply net (flag.server f +:+ ":993") (flag.username f) (flag.password f)
  = None →
  client.select_reply srv [select_request mbox] = inl st →
  client.fetch_reply srv [select_request mbox; fetch_request] = (msgs, res) →
  Forall (λ msg, is_Some (imap.Envelope_ msg)) msgs →
  (2 * length msgs + 6 ≤ length sched)%nat →
  is_Some res ∨ flag.dryRun f = true →
  ∃ fr,
    range_loop mbox (flag.ignoreMessageID f) (flag.listOnlyDups f) msgs fr0
    = Some fr
    ∧ main sched net f
      = Exited (mkProcess
          [EvDialTLS (flag.server f +:+ ":993") (flag.server f);
           EvLogin (flag.username f) (flag.password f); EvLogout]
          (Some (client.mkClient srv [select_request mbox; fetch_request]))
          (match res with
           | Some _ => stdout fr
           | None => stdout fr +:+ "would have removed "
                       +:+ pretty (length (dups fr)) +:+ " messages" +:+ LF
           end)
          (match res with Some e => complaint e | None => "" end)
          false).
Proof.
  intros mbox fr0 Hfull Hdial Hlogin Hsel Hfetch Hall Hlen Hquiet.
  rewrite main_unfold. cbv zeta.
  rewrite decide_False by exact Hfull.
  change (flag.server f +:+ ":" +:+ "993") with (flag.server f +:+ ":993").
  rewrite Hdial, Hlogin.
  destruct (FindDups_run_inv_any sched (client.mkClient srv []) ""
              mbox (flag.ignoreMessageID f) (flag.listOnlyDups f) st msgs res
              Hsel Hfetch) as (m & Hrun & _ & Hinv & Hend).
  fold mbox. rewrite Hrun.
  pose proof (inv_any_outcome _ _ _ _ _ _ _ _ Hinv eq_refl eq_refl) as Hout.
  unfold outcome in Hout.
  destruct (Hend Hlen) as [[fr Hk]|Hk]; rewrite Hk in *;
    [|destruct Hout as [Hnot _]; contradiction].
  destruct Hout as (_ & He & _ & Hconn).
  destruct Hinv as (_ & _ & _ & _ & _ & _ & Hfr). rewrite Hk in Hfr.
  destruct Hfr as (_ & _ & Hloop & _).
  exists fr. split; [exact Hloop|]. rewrite Hconn, He.
  destruct res as [e|]; [reflexivity|].
  destruct Hquiet as [[? ?]| ->]; [discriminate|reflexivity].
Qed.

Lemma main_scan_only_witness :
  ∃ out,
    main (repeat true 14) (lan flaky) (flags_of false)
    = Exited (mkProcess
        [EvDialTLS "imap.example.org:993" "imap.example.org";
         EvLogin "alice" "secret"; EvLogout]
        (Some (client.mkClient flaky [select_request "INBOX"; fetch_request]))
        out (complaint "connection closed") false).
Proof.
  destruct (main_scan_only (repeat true 14) (lan flaky) (flags_of false) flaky
              status inbox (Some "connection closed")) as (fr & _ & Hmain);
    try reflexivity.
  - intros [H|[H|[H|H]]]; discriminate H.
  - repeat constructor; eexists; reflexivity.
  - left. eexists. reflexivity.
  - exists (stdout fr). exact Hmain.
Defined.

(** X19: with the dry-run flag off, a fetch without error and every mark
    and the purge accepted, main sends the selection, the fetch, the
    selection again, one mark per identifier of the Duplicate List in order
    and the purge, and prints the count and the word done. *)
Theorem main_full_run sched net f srv st st' msgs :
  let mbox := flag.mbox f in
  let fr0 := mkFrame ∅ [] ("MBOX UID " +:+ pretty (imap.UidValidity st) +:+ LF) in
  let found := duplicate_list [] (records (flag.ignoreMessageID f) msgs) in
  let scan := [select_request mbox; fetch_request; select_request mbox] in
  let all := scan ++ map mark_request found ++ [client.CmdExpunge] in
  ¬ (flag.username f = "" ∨ flag.password f = ""
     ∨ flag.server f = "" ∨ flag.mbox f = "") →
  flag.dryRun f = false →
  DialTLS_reply net (flag.server f +:+ ":993") (flag.server f) = inl srv →
  Login_reply net (flag.server f +:+ ":993") (flag.username f) (flag.password f)
  = None →
  client.select_reply srv [select_request mbox] = inl st →
  client.fetch_reply srv [select_request mbox; fetch_request] = (msgs, None) →
  Forall (λ msg, is_Some (imap.Envelope_ msg)) msgs →
  (2 * length msgs + 6 ≤ length sched)%nat →
  client.select_reply srv scan = inl st' →
  (∀ k, (k < length found)%nat → mark_reply srv scan found k = None) →
  client.expunge_reply srv all = None →
  ∃ fr,
    range_loop mbox (flag.ignoreMessageID f) (flag.listOnlyDups f) msgs fr0
    = Some fr
    ∧ main sched net f
      = Exited (mkProcess
          [EvDialTLS (flag.server f +:+ ":993") (flag.server f);
           EvLogin (flag.username f) (flag.password f); EvLogout]
          (Some (client.mkClient srv all))
          (stdout fr +:+ "will remove " +:+ pretty (length found)
             +:+ " messages" +:+ LF +:+ "done" +:+ LF)
          "" false).
Proof.
  intros mbox fr0 found scan all Hfull Hdry Hdial Hlogin Hsel Hfetch Hall Hlen
    Hsel' Hmarks Hpurge.
  rewrite main_unfold. cbv zeta.
  rewrite decide_False by exact Hfull.
  change (flag.server f +:+ ":" +:+ "993") with (flag.server f +:+ ":993").
  rewrite Hdial, Hlogin, Hdry.
  destruct (FindDups_run_inv_any sched (client.mkClient srv []) ""
              mbox (flag.ignoreMessageID f) (flag.listOnlyDups f) st msgs None
              Hsel Hfetch) as (m & Hrun & _ & Hinv & Hend).
  fold mbox. rewrite Hrun.
  pose proof (inv_any_outcome _ _ _ _ _ _ _ _ Hinv eq_refl eq_refl) as Hout.
  unfold outcome in Hout.
  destruct (Hend Hlen) as [[fr Hk]|Hk]; rewrite Hk in *;
    [|destruct Hout as [Hnot _]; contradiction].
  destruct Hout as (_ & He & Hdl & Hconn).
  destruct Hinv as (_ & _ & _ & _ & _ & _ & Hfr). rewrite Hk in Hfr.
  destruct Hfr as (_ & _ & Hloop & _).
  exists fr. split; [exact Hloop|]. rewrite Hconn, He, Hdl. fold found.
  rewrite RemoveDups_unfold. cbv zeta. simpl client.sent. simpl client.server.
  change ([select_request mbox; fetch_request] ++ [select_request mbox]) with scan.
  rewrite Hsel', (mark_loop_all srv found scan Hmarks).
  unfold client.Expunge, client.issue. simpl client.sent. simpl client.server.
  change (client.expunge_reply srv _) with (client.expunge_reply srv all).
  rewrite Hpurge. do 2 f_equal. rewrite !string_append_assoc. reflexivity.
Qed.

Lemma main_full_run_witness :
  ∃ out,
    main (repeat true 14) (lan steady) (flags_of false)
    = Exited (mkProcess
        [EvDialTLS "imap.example.org:993" "imap.example.org";
         EvLogin "alice" "secret"; EvLogout]
        (Some (client.mkClient steady
                 [select_request "INBOX"; fetch_request; select_request "INBOX";
                  mark_request 30%N; mark_request 40%N; client.CmdExpunge]))
        (out +:+ "will remove 2 messages" +:+ LF +:+ "done" +:+ LF) "" false).
Proof.
  destruct (main_full_run (repeat true 14) (lan steady) (flags_of false) steady
              status status inbox) as (fr & _ & Hmain);
    try reflexivity.
  - intros [H|[H|[H|H]]]; discriminate H.
  - repeat constructor; eexists; reflexivity.
  - exists (stdout fr). rewrite Hmain. reflexivity.
Defined.

Example main_dry_run :
  main (repeat true 14) (lan steady) (flags_of true)
  = Exited (mkProcess
      [EvDialTLS "imap.example.org:993" "imap.example.org";
       EvLogin "alice" "secret"; EvLogout]
      (Some (client.mkClient steady [select_request "INBOX"; fetch_request]))
      ("MBOX UID 77" +:+ LF +:+
       "INBOX: hello 10 <1@example.org>:" +:+ LF +:+
       "INBOX: hello 20 <2@example.org>:" +:+ LF +:+
       "INBOX: hello 30 <1@example.org>:duplicate" +:+ LF +:+
       "INBOX: hello 40 <2@example.org>:duplicate" +:+ LF +:+
       "would have removed 2 messages" +:+ LF)
      "" false).
Proof. vm_compute. reflexivity. Qed.

(** A message without envelope with one message after it: the panic runs the
    deferred Logout and ends the process. *)
Example main_panics :
  main (repeat true 12) (lan broken) (flags_of false)
  = Crashed [EvDialTLS "imap.example.org:993" "imap.example.org";
             EvLogin "alice" "secret"; EvLogout]
      (Some (client.mkClient broken [select_request "INBOX"; fetch_request])).
Proof. vm_compute. reflexivity. Qed.

(** ** What FindDups prints *)

Lemma loop_body_line mbox ig lo fr msg env :
  imap.Envelope_ msg = Some env →
  let fp := fingerprint ig env in
  ∃ fr',
    loop_body mbox ig lo fr msg = Some fr'
    ∧ stdout fr'
      = stdout fr +:+ line mbox lo env (imap.Uid msg) fp
                        (bool_decide (fp ∈ uniqueIDs fr))
    ∧ uniqueIDs fr' = {[fp]} ∪ uniqueIDs fr.
Proof.
  intros Henv fp. unfold loop_body. rewrite Henv. fold fp. unfold line.
  destruct lo; simpl; destruct (decide (fp ∈ uniqueIDs fr)) as [Hin|Hin];
    [rewrite bool_decide_eq_true_2 by exact Hin
    |rewrite bool_decide_eq_false_2 by exact Hin
    |rewrite bool_decide_eq_true_2 by exact Hin
    |rewrite bool_decide_eq_false_2 by exact Hin];
    eexists; (split; [reflexivity|]); simpl;
    rewrite ?string_append_assoc, ?string_append_nil_r;
    (split; [reflexivity|]); try reflexivity;
    symmetry; apply subseteq_union_1_L, singleton_subseteq_l; exact Hin.
Qed.

Lemma range_loop_transcript mbox ig lo msgs : ∀ fr earlier fr',
  uniqueIDs fr = list_to_set earlier →
  range_loop mbox ig lo msgs fr = Some fr' →
  stdout fr' = stdout fr +:+ transcript mbox ig lo earlier msgs.
Proof.
  induction msgs as [|msg msgs IH]; intros fr earlier fr' Hseen Hrun.
  - simpl in *. injection Hrun as <-. rewrite string_append_nil_r. reflexivity.
  - cbn [range_loop transcript] in *.
    destruct (imap.Envelope_ msg) as [env|] eqn:Henv;
      [|unfold loop_body in Hrun; rewrite Henv in Hrun; discriminate].
    destruct (loop_body_line mbox ig lo fr msg env Henv) as (fr1 & Hbody & Hout & Hu).
    rewrite Hbody in Hrun. cbv zeta.
    rewrite (IH fr1 (earlier ++ [fingerprint ig env]) fr' ) ; [| |exact Hrun].
    + rewrite Hout, string_append_assoc. do 3 f_equal.
      apply bool_decide_ext. rewrite Hseen. apply elem_of_list_to_set.
    + rewrite Hu, Hseen, list_to_set_app_L. simpl.
      rewrite (right_id_L ∅ (∪)). apply (comm_L (∪)).
Qed.

Lemma transcript_quiet mbox ig msgs : ∀ earlier,
  NoDup (records ig msgs).*1 →
  (∀ fp, fp ∈ (records ig msgs).*1 → fp ∉ earlier) →
  Forall (λ msg, is_Some (imap.Envelope_ msg)) msgs →
  transcript mbox ig true earlier msgs = "".
Proof.
  induction msgs as [|msg msgs IH]; intros earlier Hnd Hout Hall; [reflexivity|].
  apply Forall_cons in Hall as [[env Henv] Hall].
  rewrite records_cons, Henv, fmap_cons in Hnd, Hout. cbn [fst] in Hnd, Hout.
  apply NoDup_cons in Hnd as [Hfresh Hnd].
  cbn [transcript]. rewrite Henv. cbv zeta.
  rewrite bool_decide_eq_false_2 by (apply Hout, elem_of_cons; auto).
  unfold line. simpl. apply IH; [exact Hnd| |exact Hall].
  intros fp Hin Hearlier. apply elem_of_app in Hearlier as [He|He].
  - apply (Hout fp); [apply elem_of_cons; auto|exact He].
  - apply list_elem_of_singleton in He. subst fp. contradiction.
Qed.

(** X13: when FindDups returns, what it has printed is the header line
    followed by the lines of the messages in arrival order: one line per
    message, or with [listOnlyDups] one line and a blank line per duplicate;
    with [listOnlyDups] and pairwise distinct fingerprints, the header
    alone. *)
Theorem FindDups_transcript sched c out mbox ig lo st msgs res :
  let log := client.sent c ++ [select_request mbox] in
  let header := "MBOX UID " +:+ pretty (imap.UidValidity st) +:+ LF in
  client.select_reply (client.server c) log = inl st →
  client.fetch_reply (client.server c) (log ++ [fetch_request]) = (msgs, res) →
  Forall (λ msg, is_Some (imap.Envelope_ msg)) msgs →
  (2 * length msgs + 6 ≤ length sched)%nat →
  ∃ m fr,
    (FindDups_run sched c out mbox ig lo).2 = inr m
    ∧ consumer m = Returned fr
    ∧ stdout fr = out +:+ header +:+ transcript mbox ig lo [] msgs
    ∧ (lo = true → NoDup (records ig msgs).*1 → stdout fr = out +:+ header).
Proof.
  intros log header Hsel Hfetch Hall Hlen.
  destruct (FindDups_run_inv sched c out mbox ig lo st msgs res Hsel Hfetch Hall)
    as (m & Hrun & _ & Hinv & Hret).
  destruct (Hret Hlen) as [fr Hfr].
  destruct (returned_outcome mbox ig lo _ _ msgs res m fr Hinv Hfr) as [Hloop _].
  apply (range_loop_transcript mbox ig lo msgs _ []) in Hloop; [|reflexivity].
  simpl in Hloop. rewrite !string_append_assoc in Hloop.
  exists m, fr. split; [exact Hrun|]. split; [exact Hfr|]. split.
  - unfold header. rewrite !string_append_assoc. exact Hloop.
  - intros -> Hnd. rewrite Hloop, transcript_quiet; auto.
    intros fp _. apply not_elem_of_nil.
Qed.

Lemma FindDups_transcript_witness :
  ∃ m fr,
    (FindDups_run (repeat true 14) (session steady) "" "INBOX" false true).2
    = inr m
    ∧ consumer m = Returned fr
    ∧ stdout fr
      = "MBOX UID 77" +:+ LF
        +:+ "INBOX: hello 30 <1@example.org>:duplicate" +:+ LF +:+ LF
        +:+ "INBOX: hello 40 <2@example.org>:duplicate" +:+ LF +:+ LF.
Proof.
  destruct (FindDups_transcript (repeat true 14) (session steady) "" "INBOX"
              false true status inbox None eq_refl eq_refl)
    as (m & fr & Hrun & Hk & Hout & _).
  - repeat constructor; eexists; reflexivity.
  - simpl. lia.
  - exists m, fr. split_and!; auto.
Defined.

(** ** The earlier version of the loop *)

Lemma loop_body_v0_agrees mbox fr0 fr msg :
  uniqueIDs fr0 = uniqueIDs fr → dups fr0 = dups fr →
  match loop_body_v0 mbox fr0 msg, loop_body mbox false false fr msg with
  | Some a, Some b => uniqueIDs a = uniqueIDs b ∧ dups a = dups b
  | None, None => True
  | _, _ => False
  end.
Proof.
  intros Hu Hd. unfold loop_body_v0, loop_body.
  destruct (imap.Envelope_ msg) as [env|]; [|exact I].
  cbv zeta. change (negb false) with true. cbv iota.
  assert (fingerprint false env
          = if decide (imap.MessageId env = "") then
              base64.EncodeToString
                (sha1.Sum sha1.New (list_byte_of_string (content env)))
            else imap.MessageId env) as <-.
  { rewrite fingerprint_unfold. reflexivity. }
  unfold Print. simpl. rewrite Hu, Hd.
  destruct (decide (fingerprint false env ∈ uniqueIDs fr)); simpl; auto.
Qed.

(** X20: the loop of the earlier version of FindDups builds the same Seen
    Set and the same Duplicate List as the loop of the later version with
    both flags off, and panics on the same streams; they differ in what they
    print. *)
Theorem range_loop_v0_agrees mbox msgs : ∀ fr0 fr,
  uniqueIDs fr0 = uniqueIDs fr → dups fr0 = dups fr →
  match range_loop_v0 mbox msgs fr0, range_loop mbox false false msgs fr with
  | Some a, Some b => uniqueIDs a = uniqueIDs b ∧ dups a = dups b
  | None, None => True
  | _, _ => False
  end.
Proof.
  induction msgs as [|msg msgs IH]; intros fr0 fr Hu Hd; simpl; [auto|].
  pose proof (loop_body_v0_agrees mbox fr0 fr msg Hu Hd) as Hbody.
  destruct (loop_body_v0 mbox fr0 msg) as [a|],
    (loop_body mbox false false fr msg) as [b|]; try contradiction; [|exact I].
  destruct Hbody as [Hu' Hd']. apply IH; assumption.
Qed.

Lemma range_loop_v0_agrees_witness :
  match range_loop_v0 "INBOX" inbox (mkFrame ∅ [] ""),
        range_loop "INBOX" false false inbox (mkFrame ∅ [] "MBOX UID 77") with
  | Some a, Some b => uniqueIDs a = uniqueIDs b ∧ dups a = dups b
  | None, None => True
  | _, _ => False
  end.
Proof.
  apply (range_loop_v0_agrees "INBOX" inbox (mkFrame ∅ [] "")
           (mkFrame ∅ [] "MBOX UID 77")); reflexivity.
Defined.
